(** * LuaBinder: a shallow embedding of [LuaBinder.h] / [LuaBinder.inl]

    The binder turns a native function [Return Func(Args...)] into a
    [lua_CFunction]: it checks the arity and the dynamic types of the values
    on the Lua stack, converts them to native values, calls the function and
    pushes its result.

    Layout of the development:
    - [CNum]: the native numeric types ([int], [float]) and the runtime's
      ([lua_Integer], [lua_Number]) with their conversions;
    - [CStr]: [std::string] and NUL-terminated C strings;
    - Lua values, native values, the world a call acts on and its monad;
    - section [Adapter]: the part of the Lua 5.3 C API the binder calls,
      then the binder itself ([LuaValue], [GetValue], [CheckSingleArg],
      [CheckArgs], [PopArgs], [PushResult], [StaticBinding]), then the
      lemmas on running them and the properties of the trampoline;
    - the properties at sample inputs. *)

From Stdlib Require Import ZArith List String Ascii Bool Lia.
From Stdlib Require Import SpecFloat.
Import ListNotations.
Local Open Scope Z_scope.

(* ===================================================================== *)
(** ** Native numbers *)
(* ===================================================================== *)

Module CNum.

(** [int] is 32 bits wide, [lua_Integer] ([long long]) 64 bits.  A
    conversion to a signed type of a value that does not fit keeps the
    value modulo 2^w. *)
Definition wrap (w : Z) (z : Z) : Z :=
  (z + 2 ^ (w - 1)) mod 2 ^ w - 2 ^ (w - 1).

Definition in_range (w : Z) (z : Z) : Prop :=
  - 2 ^ (w - 1) <= z < 2 ^ (w - 1).

Definition in_rangeb (w : Z) (z : Z) : bool :=
  (- 2 ^ (w - 1) <=? z) && (z <? 2 ^ (w - 1)).

Definition to_int : Z -> Z := wrap 32.
Definition to_lua_Integer : Z -> Z := wrap 64.
Definition is_int : Z -> Prop := in_range 32.

(** Floating-point values, of either width, are IEEE 754 data: zeros,
    infinities, NaN and finite numbers [(-1)^s * m * 2^e].  A finite value
    is kept with an odd mantissa, so that one number has one
    representation whatever the format it is stored in. *)
Definition fp : Type := spec_float.

Fixpoint strip_zeros (m : positive) (e : Z) : positive * Z :=
  match m with
  | xO m' => strip_zeros m' (e + 1)
  | _ => (m, e)
  end.

Definition fp_canon (x : fp) : fp :=
  match x with
  | S754_finite s m e =>
      let '(m', e') := strip_zeros m e in S754_finite s m' e'
  | _ => x
  end.

Definition odd_mantissa (m : positive) : bool :=
  match m with xO _ => false | _ => true end.

(** [fp_in_format prec emax x]: [x] is a value of the binary format with
    [prec] bits of precision and exponents below [emax]. *)
Definition fp_in_format (prec emax : Z) (x : fp) : bool :=
  match x with
  | S754_finite _ m e =>
      odd_mantissa m
      && (Zpos (digits2_pos m) <=? prec)
      && (emin prec emax <=? e)
      && (Zpos (digits2_pos m) + e <=? emax)
  | _ => true
  end.

(** Conversion to a floating type: a value the destination represents is
    kept; any other is rounded to nearest, ties to even. *)
Definition fp_round (prec emax : Z) (x : fp) : fp :=
  if fp_in_format prec emax x then x
  else match x with
       | S754_finite s m e => fp_canon (binary_round prec emax s m e)
       | _ => x
       end.

Definition is_float (x : fp) : Prop := fp_in_format 24 128 x = true.
Definition is_double (x : fp) : Prop := fp_in_format 53 1024 x = true.

Definition float_of_double : fp -> fp := fp_round 24 128.
Definition double_of_float : fp -> fp := fp_round 53 1024.

Definition float_of_int (z : Z) : fp :=
  fp_canon (binary_normalize 24 128 z 0 false).
Definition double_of_lua_Integer (z : Z) : fp :=
  fp_canon (binary_normalize 53 1024 z 0 false).

(** The integer part of a floating value, rounding toward zero. *)
Definition fp_trunc (x : fp) : option Z :=
  match x with
  | S754_zero _ => Some 0
  | S754_finite s m e =>
      let a := Z.shiftl (Zpos m) e in Some (if s then - a else a)
  | _ => None
  end.

(** [static_cast<int>(f)]: truncation; there is no result when the
    truncated value is not an [int] (or [f] is not finite). *)
Definition int_of_float (x : fp) : option Z :=
  match fp_trunc x with
  | Some z => if in_rangeb 32 z then Some z else None
  | None => None
  end.

(** The runtime's float-to-integer conversion ([luaV_tointeger], mode 0):
    only a float with an exact integral value that fits converts. *)
Definition lua_Integer_of_double (x : fp) : option Z :=
  match fp_canon x with
  | S754_zero _ => Some 0
  | S754_finite s m e =>
      if 0 <=? e then
        let a := Z.shiftl (Zpos m) e in
        let z := if s then - a else a in
        if in_rangeb 64 z then Some z else None
      else None
  | _ => None
  end.

End CNum.

(* ===================================================================== *)
(** ** Text *)
(* ===================================================================== *)

Module CStr.

Definition NUL : ascii := Ascii.zero.

(** The characters a C string (a pointer to [char]) denotes: those before
    the first NUL.  The [std::string] constructor from a C string and
    [lua_pushstring] both read their argument this way. *)
Fixpoint c_str (s : string) : string :=
  match s with
  | EmptyString => EmptyString
  | String c r => if Ascii.eqb c NUL then EmptyString else String c (c_str r)
  end.

Fixpoint has_NUL (s : string) : bool :=
  match s with
  | EmptyString => false
  | String c r => Ascii.eqb c NUL || has_NUL r
  end.

End CStr.

(* ===================================================================== *)
(** ** Values on both sides of the boundary *)
(* ===================================================================== *)

(** Modelled from the spec: the values of the runtime (the embedded
    lua-5.3.5, not under src/), as they sit in a stack slot.  Numbers come
    in two subtypes, integer and float; opaque handles in two, full (heavy)
    and light userdata.  Pointers are addresses. *)
Inductive TValue : Type :=
| LNil
| LBoolean (b : bool)
| LLightUserdata (p : Z)
| LInteger (i : Z)
| LFloat (n : CNum.fp)
| LString (s : string)
| LTable (ref : Z)
| LFunction (ref : Z)
| LUserdata (block : Z)
| LThread (ref : Z).

(** Modelled from the spec: the type-tag vocabulary, with the values the
    basic type tags have in [lua.h] of lua-5.3.5. *)
Definition LUA_TNONE : Z := -1.
Definition LUA_TNIL : Z := 0.
Definition LUA_TBOOLEAN : Z := 1.
Definition LUA_TLIGHTUSERDATA : Z := 2.
Definition LUA_TNUMBER : Z := 3.
Definition LUA_TSTRING : Z := 4.
Definition LUA_TTABLE : Z := 5.
Definition LUA_TFUNCTION : Z := 6.
Definition LUA_TUSERDATA : Z := 7.
Definition LUA_TTHREAD : Z := 8.

(** Modelled from the spec: the basic type tag of a value ([ttnov]). *)
Definition ttnov (v : TValue) : Z :=
  match v with
  | LNil => LUA_TNIL
  | LBoolean _ => LUA_TBOOLEAN
  | LLightUserdata _ => LUA_TLIGHTUSERDATA
  | LInteger _ | LFloat _ => LUA_TNUMBER
  | LString _ => LUA_TSTRING
  | LTable _ => LUA_TTABLE
  | LFunction _ => LUA_TFUNCTION
  | LUserdata _ => LUA_TUSERDATA
  | LThread _ => LUA_TTHREAD
  end.

(** A parameter type of the bound function, as the templates see it: the
    four types with explicit specializations, pointer types (which
    [std::is_pointer] selects in [PopArgs]) and every other type. *)
Inductive CType : Type :=
| CBool
| CInt
| CFloat
| CString
| CPointer (pointee : string)
| COther (name : string).

Definition is_pointer (T : CType) : bool :=
  match T with CPointer _ => true | _ => false end.

(** A native value: an element of the argument tuple, or a result. *)
Inductive NativeVal : Type :=
| NBool (b : bool)
| NInt (i : Z)
| NFloat (f : CNum.fp)
| NString (s : string)
| NPtr (p : Z).

(** The runtime entry points the binder goes through. *)
Inductive ApiFn : Type :=
| api_gettop | api_type | api_isinteger | api_isnumber | api_isstring
| api_isuserdata | api_toboolean | api_tointegerx | api_tonumberx
| api_tolstring | api_touserdata
| api_pushboolean | api_pushinteger | api_pushnumber | api_pushstring
| api_pushlightuserdata.

(** What a call of the trampoline acts on: the Lua stack of the call
    (slot 1 first), the text written to [std::cout], and the calls of the
    bound function with their argument tuples.  [api] records the runtime
    entry points called so far with the index they were given (0 where there
    is none); nothing reads it back, it only tells which slots were
    inspected. *)
Record World : Type := mkWorld {
  stack : list TValue;
  cout : list string;
  invoked : list (list NativeVal);
  api : list (ApiFn * Z)
}.

(** Computations over the world; [None] stands for undefined behaviour
    (reading a union member that was not written, an out-of-range
    float-to-int cast, a null C string). *)
Definition M (A : Type) : Type := World -> option (A * World).

Definition ret {A} (a : A) : M A := fun w => Some (a, w).

Definition bind {A B} (m : M A) (k : A -> M B) : M B :=
  fun w => match m w with
           | Some (a, w') => k a w'
           | None => None
           end.

Definition undefined {A} : M A := fun _ => None.

Definition lift {A} (o : option A) : M A :=
  fun w => match o with Some a => Some (a, w) | None => None end.

Declare Scope binder_scope.
Delimit Scope binder_scope with binder.
Notation "x <- m ;; k" := (bind m (fun x => k))
  (at level 61, m at next level, right associativity) : binder_scope.
Notation "m ;; k" := (bind m (fun _ => k))
  (at level 61, right associativity) : binder_scope.
Local Open Scope binder_scope.

Definition log (f : ApiFn) (i : Z) : M unit :=
  fun w => Some (tt, mkWorld (stack w) (cout w) (invoked w) (api w ++ [(f, i)])).

Definition print (s : string) : M unit :=
  fun w => Some (tt, mkWorld (stack w) (cout w ++ [s]) (invoked w) (api w)).

Definition get_stack : M (list TValue) := fun w => Some (stack w, w).

Definition set_stack (st : list TValue) : M unit :=
  fun w => Some (tt, mkWorld st (cout w) (invoked w) (api w)).

(** Calling the bound function: the call is recorded with its arguments. *)
Definition call {R} (f : list NativeVal -> R) (args : list NativeVal) : M R :=
  fun w => Some (f args, mkWorld (stack w) (cout w) (invoked w ++ [args]) (api w)).

(** A read-only runtime query: it is logged and answers from the stack. *)
Definition query {A} (f : ApiFn) (idx : Z) (q : list TValue -> A) : M A :=
  log f idx ;; st <- get_stack ;; ret (q st).

Fixpoint update_nth {A} (n : nat) (a : A) (l : list A) : list A :=
  match l, n with
  | [], _ => []
  | _ :: r, O => a :: r
  | x :: r, S n' => x :: update_nth n' a r
  end.

(* ===================================================================== *)
(** ** LuaValue: the decoded value *)
(* ===================================================================== *)

Inductive ValType : Type :=
| vtBool
| vtInt
| vtNumber
| vtString
| vtUserData
| vtErr.

(** The union [LuaValue::Value].  Its constructor [Value() {}] constructs
    no member; the constructor of [LuaValue] zeroes the storage and then
    assigns at most one member.  Only the member assigned can be read,
    reading any other has no defined result.  [member_s] is the state in
    which the union holds a constructed [std::string]. *)
Inductive Value : Type :=
| zeroed
| member_i (i : Z)
| member_f (f : CNum.fp)
| member_b (b : bool)
| member_s (s : string)
| member_u (u : Z).

Record LuaValue : Type := mkLuaValue {
  type : ValType;
  value : Value
}.

Definition value_i (v : Value) : option Z :=
  match v with member_i i => Some i | _ => None end.
Definition value_f (v : Value) : option CNum.fp :=
  match v with member_f f => Some f | _ => None end.
Definition value_b (v : Value) : option bool :=
  match v with member_b b => Some b | _ => None end.
Definition value_s (v : Value) : option string :=
  match v with member_s s => Some s | _ => None end.
Definition value_u (v : Value) : option Z :=
  match v with member_u u => Some u | _ => None end.

(** Assignment to the member [s].  The members [i], [f], [b] and [u] are
    of scalar types and can be assigned in any state of the union; [s] is
    a [std::string], whose assignment operator works on a constructed
    string: on a union in which no string was constructed the assignment
    has no defined result. *)
Definition assign_s (v : Value) (s : string) : option Value :=
  match v with
  | member_s _ => Some (member_s s)
  | _ => None
  end.

(** The result type of the bound function: [void] or not. *)
Inductive RType : Type :=
| RVoid
| RValue.

Definition Result (R : RType) : Type :=
  match R with RVoid => unit | RValue => NativeVal end.

(** [Binder<Return, Args...>] together with the bound [Func]. *)
Record Binder : Type := mkBinder {
  Return : RType;
  Args : list CType;
  Func : list NativeVal -> Result Return
}.

(** The diagnostics written to [std::cout]. *)
Definition endl : string := String (ascii_of_nat 10) EmptyString.
Definition msg_unsupported : string :=
  String.append "Type not supported by Lua Binder" endl.
Definition msg_count : string := String.append "Incorrect argument count" endl.
Definition msg_type : string := String.append "Incorrect argument type" endl.

(** The [float] nearest to 3.7, the [double] nearest to 3.7, and 5.0. *)
Definition float_3_7 : CNum.fp := S754_finite false 15518925 (-22).
Definition double_3_7 : CNum.fp := S754_finite false 4165829655317709 (-50).
Definition float_5_0 : CNum.fp := S754_finite false 5 0.

(* ===================================================================== *)
(** ** Sample data for the examples *)
(* ===================================================================== *)

(** The [double] and the [float] nearest to 0.1. *)
Definition double_0_1 : CNum.fp := S754_finite false 3602879701896397 (-55).
Definition float_0_1 : CNum.fp := S754_finite false 13421773 (-27).

(** The three characters a, NUL, b. *)
Definition text_a_NUL_b : string :=
  String "a" (String CStr.NUL (String "b" EmptyString)).

(** An instance of the runtime's two conversions: a text of decimal
    digits denotes an integer, and numbers print as [#]. *)
Fixpoint digits_value (s : string) (acc : Z) : option Z :=
  match s with
  | EmptyString => Some acc
  | String c r =>
      let d := Z.of_nat (nat_of_ascii c) - 48 in
      if (0 <=? d) && (d <=? 9) then digits_value r (10 * acc + d) else None
  end.

Definition decimal_str2num (s : string) : option (Z + CNum.fp) :=
  match s with
  | EmptyString => None
  | _ => option_map inl (digits_value s 0)
  end.

Definition hash_number2str (n : Z + CNum.fp) : string := "#".

Definition fresh_world (st : list TValue) : World := mkWorld st [] [] [].

(** A function [count] from an [int], a [float], a [std::string], a [bool]
    and a pointer to [Foo] to the [int] number of its arguments, and a
    function [nothing] from no argument to [void]. *)
Definition count_binder : Binder :=
  mkBinder RValue [CInt; CFloat; CString; CBool; CPointer "Foo"]
           (fun args => NInt (Z.of_nat (List.length args))).

Definition nothing_binder : Binder := mkBinder RVoid [] (fun _ => tt).

Definition count_stack : list TValue :=
  [LInteger 7; LFloat double_3_7; LString "ab"; LBoolean true; LUserdata 4096].

(** A function [sum] from an [int], a [float], a [bool] and a pointer to
    [Foo] to the [int] number of its arguments, a matching stack, and the
    world after the call. *)
Definition sum_binder : Binder :=
  mkBinder RValue [CInt; CFloat; CBool; CPointer "Foo"]
           (fun args => NInt (Z.of_nat (List.length args))).

Definition sum_stack : list TValue :=
  [LInteger 7; LFloat double_3_7; LBoolean true; LUserdata 4096].

Definition sum_result : World :=
  mkWorld (sum_stack ++ [LInteger 4]) []
          [[NInt 7; NFloat float_3_7; NBool true; NPtr 4096]]
          [(api_gettop, 0); (api_isinteger, 1); (api_isnumber, 2);
           (api_type, 3); (api_isuserdata, 4);
           (api_type, 1); (api_isinteger, 1); (api_tointegerx, 1);
           (api_type, 2); (api_isinteger, 2); (api_tonumberx, 2);
           (api_type, 3); (api_toboolean, 3);
           (api_type, 4); (api_touserdata, 4);
           (api_pushinteger, 0)].

(** The same call with a text where the float is expected. *)
Definition bad_stack : list TValue :=
  [LInteger 7; LString "x"; LString "ab"; LBoolean true; LUserdata 4096].

(* ===================================================================== *)
(** ** The Lua 5.3 C API, as far as the binder uses it *)
(* ===================================================================== *)

Section Adapter.

(** Modelled from the spec: the runtime's conversion of a text to a number
    ([luaO_str2num] of the embedded lua-5.3.5, not under src/), taken as a
    parameter: the integer or the float the text denotes, if any. *)
Variable luaO_str2num : string -> option (Z + CNum.fp).

(** Modelled from the spec: the runtime's formatting of a number as text
    ([luaO_tostring] of the embedded lua-5.3.5, not under src/), taken as a
    parameter. *)
Variable number2str : Z + CNum.fp -> string.

(** Modelled from the spec: the pseudo-index of the registry, as [lua.h]
    of lua-5.3.5 defines it. *)
Definition LUA_REGISTRYINDEX : Z := -1001000.

(** Modelled from the spec: the slot a stack index denotes in a C function
    without upvalues.  Positive indices count from the first argument,
    negative ones from the top; the registry is a table; any other index
    denotes no value. *)
Definition stack_pos (st : list TValue) (idx : Z) : option nat :=
  if 0 <? idx then
    if idx <=? Z.of_nat (List.length st) then Some (Z.to_nat (idx - 1)) else None
  else if (idx <? 0) && (- Z.of_nat (List.length st) <=? idx) then
    Some (Z.to_nat (Z.of_nat (List.length st) + idx))
  else None.

(** Modelled from the spec: the value a stack index denotes ([index2addr]
    of lua-5.3.5), if any. *)
Definition index2addr (st : list TValue) (idx : Z) : option TValue :=
  match stack_pos st idx with
  | Some n => nth_error st n
  | None => if idx =? LUA_REGISTRYINDEX then Some (LTable 0) else None
  end.

(** Modelled from the spec: an index that denotes no value reads as nil. *)
Definition slot (st : list TValue) (idx : Z) : TValue :=
  match index2addr st idx with Some v => v | None => LNil end.

(** Modelled from the spec: the type tag at an index, [LUA_TNONE] where
    the index denotes no value. *)
Definition type_at (st : list TValue) (idx : Z) : Z :=
  match index2addr st idx with Some v => ttnov v | None => LUA_TNONE end.

(** Modelled from the spec: the runtime's [tonumber]: a float, an integer,
    or a text that converts to one. *)
Definition tonumber (v : TValue) : option CNum.fp :=
  match v with
  | LFloat n => Some n
  | LInteger i => Some (CNum.double_of_lua_Integer i)
  | LString s =>
      match luaO_str2num s with
      | Some (inl i) => Some (CNum.double_of_lua_Integer i)
      | Some (inr n) => Some n
      | None => None
      end
  | _ => None
  end.

(** Modelled from the spec: the runtime's [tointeger]: an integer, a float
    with an integral value, or a text that converts to one of them. *)
Definition tointeger (v : TValue) : option Z :=
  match v with
  | LInteger i => Some i
  | LFloat n => CNum.lua_Integer_of_double n
  | LString s =>
      match luaO_str2num s with
      | Some (inl i) => Some i
      | Some (inr n) => CNum.lua_Integer_of_double n
      | None => None
      end
  | _ => None
  end.

Definition is_some {A} (o : option A) : bool :=
  match o with Some _ => true | None => false end.

(** Modelled from the spec: value count of the call stack ([lua_gettop]). *)
Definition lua_gettop : M Z :=
  query api_gettop 0 (fun st => Z.of_nat (List.length st)).

(** Modelled from the spec: the dynamic type tag per position ([lua_type]). *)
Definition lua_type (idx : Z) : M Z :=
  query api_type idx (fun st => type_at st idx).

(** Modelled from the spec: [lua_isboolean], a macro over [lua_type]. *)
Definition lua_isboolean (idx : Z) : M bool :=
  t <- lua_type idx ;; ret (t =? LUA_TBOOLEAN).

(** Modelled from the spec: [lua_islightuserdata], a macro over [lua_type]. *)
Definition lua_islightuserdata (idx : Z) : M bool :=
  t <- lua_type idx ;; ret (t =? LUA_TLIGHTUSERDATA).

(** Modelled from the spec: [lua_isinteger], the integral-ness flag of a
    number: true for the integer subtype only. *)
Definition lua_isinteger (idx : Z) : M bool :=
  query api_isinteger idx
    (fun st => match slot st idx with LInteger _ => true | _ => false end).

(** Modelled from the spec: [lua_isnumber]: a number or a text convertible
    to a number. *)
Definition lua_isnumber (idx : Z) : M bool :=
  query api_isnumber idx (fun st => is_some (tonumber (slot st idx))).

(** Modelled from the spec: [lua_isstring]: a text or a number (which is
    always convertible to a text). *)
Definition lua_isstring (idx : Z) : M bool :=
  query api_isstring idx
    (fun st => match slot st idx with
               | LString _ | LInteger _ | LFloat _ => true
               | _ => false
               end).

(** Modelled from the spec: [lua_isuserdata]: a full or a light userdata. *)
Definition lua_isuserdata (idx : Z) : M bool :=
  query api_isuserdata idx
    (fun st => match slot st idx with
               | LUserdata _ | LLightUserdata _ => true
               | _ => false
               end).

(** Modelled from the spec: the boolean reader ([lua_toboolean]): false for
    [false] and [nil], true for any other value. *)
Definition lua_toboolean (idx : Z) : M bool :=
  query api_toboolean idx
    (fun st => match slot st idx with
               | LNil => false
               | LBoolean b => b
               | _ => true
               end).

(** Modelled from the spec: the integer reader ([lua_tointeger]); 0 when
    the value does not convert. *)
Definition lua_tointeger (idx : Z) : M Z :=
  query api_tointegerx idx
    (fun st => match tointeger (slot st idx) with Some i => i | None => 0 end).

(** Modelled from the spec: the number reader ([lua_tonumber]); 0 when the
    value does not convert. *)
Definition lua_tonumber (idx : Z) : M CNum.fp :=
  query api_tonumberx idx
    (fun st => match tonumber (slot st idx) with
               | Some n => n
               | None => S754_zero false
               end).

(** Modelled from the spec: the text reader ([lua_tostring]).  It returns
    the characters of the runtime's buffer (whose length the runtime knows:
    they may include NUL), or no pointer for a value that is neither a text
    nor a number.  A number is first replaced, in its stack slot, by its
    text. *)
Definition lua_tostring (idx : Z) : M (option string) :=
  log api_tolstring idx ;;
  st <- get_stack ;;
  match slot st idx with
  | LString s => ret (Some s)
  | LInteger i =>
      let s := number2str (inl i) in
      match stack_pos st idx with
      | Some n => set_stack (update_nth n (LString s) st) ;; ret (Some s)
      | None => ret (Some s)
      end
  | LFloat x =>
      let s := number2str (inr x) in
      match stack_pos st idx with
      | Some n => set_stack (update_nth n (LString s) st) ;; ret (Some s)
      | None => ret (Some s)
      end
  | _ => ret None
  end.

(** Modelled from the spec: the opaque-handle reader ([lua_touserdata]):
    the block address of a full userdata, the pointer of a light one, null
    for any other value. *)
Definition lua_touserdata (idx : Z) : M Z :=
  query api_touserdata idx
    (fun st => match slot st idx with
               | LUserdata p | LLightUserdata p => p
               | _ => 0
               end).

(** Modelled from the spec: what the typed writers share: each is one
    runtime call that puts one value on top of the stack. *)
Definition push (f : ApiFn) (v : TValue) : M unit :=
  log f 0 ;; st <- get_stack ;; set_stack (st ++ [v]).

(** Modelled from the spec: the boolean writer ([lua_pushboolean]). *)
Definition lua_pushboolean (b : bool) : M unit :=
  push api_pushboolean (LBoolean b).

(** Modelled from the spec: the integer writer ([lua_pushinteger]). *)
Definition lua_pushinteger (n : Z) : M unit :=
  push api_pushinteger (LInteger n).

(** Modelled from the spec: the number writer ([lua_pushnumber]). *)
Definition lua_pushnumber (n : CNum.fp) : M unit :=
  push api_pushnumber (LFloat n).

(** Modelled from the spec: the opaque-handle writer
    ([lua_pushlightuserdata]). *)
Definition lua_pushlightuserdata (p : Z) : M unit :=
  push api_pushlightuserdata (LLightUserdata p).

(** Modelled from the spec: the text writer ([lua_pushstring]): it copies
    the C string it is given (up to its first NUL), and pushes nil for a
    null pointer. *)
Definition lua_pushstring (s : option string) : M unit :=
  match s with
  | Some buf => push api_pushstring (LString (CStr.c_str buf))
  | None => push api_pushstring LNil
  end.

(* ===================================================================== *)
(** ** Decoding a stack slot *)
(* ===================================================================== *)

(** [LuaValue::LuaValue(lua_State * L, int i)].  The union starts zeroed
    ([std::memset]); each case assigns the member of its kind.  The text
    case assigns to the member [s] of that zeroed union, in which no
    string was constructed. *)
Definition LuaValue_ctor (i : Z) : M LuaValue :=
  t <- lua_type i ;;
  if t =? LUA_TBOOLEAN then
    b <- lua_toboolean i ;;
    ret (mkLuaValue vtBool (member_b b))
  else if t =? LUA_TNUMBER then
    isint <- lua_isinteger i ;;
    if isint then
      n <- lua_tointeger i ;;
      ret (mkLuaValue vtInt (member_i (CNum.to_int n)))
    else
      n <- lua_tonumber i ;;
      ret (mkLuaValue vtNumber (member_f (CNum.float_of_double n)))
  else if t =? LUA_TSTRING then
    p <- lua_tostring i ;;
    match p with
    | Some buf =>
        v <- lift (assign_s zeroed (CStr.c_str buf)) ;;
        ret (mkLuaValue vtString v)
    | None => undefined
    end
  else if (t =? LUA_TLIGHTUSERDATA) || (t =? LUA_TUSERDATA) then
    u <- lua_touserdata i ;;
    ret (mkLuaValue vtUserData (member_u u))
  else
    print msg_unsupported ;;
    ret (mkLuaValue vtErr zeroed).

(** [LuaValue::GetValue<int>] *)
Definition GetValue_int (v : LuaValue) : option Z :=
  match type v with
  | vtNumber =>
      match value_f (value v) with
      | Some f => CNum.int_of_float f
      | None => None
      end
  | _ => value_i (value v)
  end.

(** [LuaValue::GetValue<float>] *)
Definition GetValue_float (v : LuaValue) : option CNum.fp :=
  match type v with
  | vtInt => option_map CNum.float_of_int (value_i (value v))
  | _ => value_f (value v)
  end.

(** [LuaValue::GetValue<bool>] *)
Definition GetValue_bool (v : LuaValue) : option bool := value_b (value v).

(** [LuaValue::GetValue<std::string>] *)
Definition GetValue_string (v : LuaValue) : option string := value_s (value v).

(** [LuaValue::GetValue<void*>] (the pointer to void) *)
Definition GetValue_voidp (v : LuaValue) : option Z := value_u (value v).

(** [LuaValue::GetValue<T>]: the template has the five specializations
    above and no generic definition. *)
Definition GetValue (T : CType) (v : LuaValue) : option NativeVal :=
  match T with
  | CInt => option_map NInt (GetValue_int v)
  | CFloat => option_map NFloat (GetValue_float v)
  | CBool => option_map NBool (GetValue_bool v)
  | CString => option_map NString (GetValue_string v)
  | CPointer pointee =>
      if String.eqb pointee "void" then option_map NPtr (GetValue_voidp v)
      else None
  | COther _ => None
  end.

(* ===================================================================== *)
(** ** Checking, popping, pushing *)
(* ===================================================================== *)

(** [CheckSingleArg<T>]: the generic template and its specializations for
    [int], [float], [std::string] and [bool]. *)
Definition CheckSingleArg (T : CType) (i : Z) : M bool :=
  match T with
  | CInt => lua_isinteger i
  | CFloat => lua_isnumber i
  | CString => lua_isstring i
  | CBool => lua_isboolean i
  | _ =>
      a <- lua_isuserdata i ;;
      if a then ret true else lua_islightuserdata i
  end.

(** [CheckArgs<Arg, Rest...>] *)
Fixpoint CheckArgs (Arg : CType) (Rest : list CType) (i : Z) : M bool :=
  ok <- CheckSingleArg Arg i ;;
  if negb ok then ret false
  else match Rest with
       | [] => ret true
       | Arg' :: Rest' => CheckArgs Arg' Rest' (i + 1)
       end.

(** [PopArgs<Arg, Rest...>]: the tuple is a list, first parameter first. *)
Fixpoint PopArgs (Arg : CType) (Rest : list CType) (i : Z)
  : M (list NativeVal) :=
  val <- LuaValue_ctor i ;;
  a <- lift (if is_pointer Arg
             then option_map NPtr (GetValue_voidp val)
             else GetValue Arg val) ;;
  match Rest with
  | [] => ret [a]
  | Arg' :: Rest' =>
      rest <- PopArgs Arg' Rest' (i + 1) ;;
      ret (a :: rest)
  end.

(** [PushResult]: one specialization per result type, selected here by
    the kind of the value. *)
Definition PushResult (v : NativeVal) : M unit :=
  match v with
  | NPtr p => lua_pushlightuserdata p
  | NInt n => lua_pushinteger (CNum.to_lua_Integer n)
  | NFloat f => lua_pushnumber (CNum.double_of_float f)
  | NBool b => lua_pushboolean b
  | NString s => lua_pushstring (Some s)
  end.

(* ===================================================================== *)
(** ** The trampoline *)
(* ===================================================================== *)

(** The tail shared by both arities: call [Func], push what it returns. *)
Definition invoke (R : RType) : (list NativeVal -> Result R) ->
                                list NativeVal -> M Z :=
  match R with
  | RVoid => fun f args => call f args ;; ret 0
  | RValue => fun f args => result <- call f args ;; PushResult result ;; ret 1
  end.

(** [Binder<Return, Args...>::StaticBinding<Func>] *)
Definition StaticBinding (B : Binder) : M Z :=
  top <- lua_gettop ;;
  if negb (top =? Z.of_nat (List.length (Args B))) then
    print msg_count ;;
    ret 0
  else
    match Args B with
    | [] => invoke (Return B) (Func B) []
    | Arg :: Rest =>
        ok <- CheckArgs Arg Rest 1 ;;
        if negb ok then
          print msg_type ;;
          ret 0
        else
          args <- PopArgs Arg Rest 1 ;;
          invoke (Return B) (Func B) args
    end.

(* ===================================================================== *)
(** ** Vocabulary of the properties *)
(* ===================================================================== *)

(** The answer of a computation, without the world it leaves. *)
Definition answer {A} (m : M A) (w : World) : option A :=
  option_map fst (m w).

(** [w] with the runtime calls [l] added to its record. *)
Definition logged (w : World) (l : list (ApiFn * Z)) : World :=
  mkWorld (stack w) (cout w) (invoked w) (api w ++ l).

Definition is_push (f : ApiFn) : bool :=
  match f with
  | api_pushboolean | api_pushinteger | api_pushnumber | api_pushstring
  | api_pushlightuserdata => true
  | _ => false
  end.

(** The number of pushes among recorded runtime calls. *)
Definition pushes (l : list (ApiFn * Z)) : nat :=
  List.length (filter (fun e => is_push (fst e)) l).

(** Recorded calls that only read, and only at indices satisfying [P]. *)
Definition reads_at (P : Z -> Prop) (l : list (ApiFn * Z)) : Prop :=
  Forall (fun e => is_push (fst e) = false /\ P (snd e)) l.

Definition heavy_or_light (v : TValue) : bool :=
  match v with LUserdata _ | LLightUserdata _ => true | _ => false end.

(** What [CheckSingleArg<T>] answers on a stack (see [CheckSingleArg_run]). *)
Definition check_ok (T : CType) (st : list TValue) (i : Z) : bool :=
  match T with
  | CInt => match slot st i with LInteger _ => true | _ => false end
  | CFloat => is_some (tonumber (slot st i))
  | CString =>
      match slot st i with
      | LString _ | LInteger _ | LFloat _ => true
      | _ => false
      end
  | CBool => type_at st i =? LUA_TBOOLEAN
  | _ => heavy_or_light (slot st i)
  end.

Fixpoint check_all (Ts : list CType) (st : list TValue) (i : Z) : bool :=
  match Ts with
  | [] => true
  | T :: Ts' => check_ok T st i && check_all Ts' st (i + 1)
  end.

(** The value the constructor of [LuaValue] builds from a slot (see
    [LuaValue_ctor_run]); there is none for a text, whose assignment to the
    union has no defined result. *)
Definition decoded (o : option TValue) : option LuaValue :=
  match o with
  | Some (LBoolean b) => Some (mkLuaValue vtBool (member_b b))
  | Some (LInteger n) => Some (mkLuaValue vtInt (member_i (CNum.to_int n)))
  | Some (LFloat x) =>
      Some (mkLuaValue vtNumber (member_f (CNum.float_of_double x)))
  | Some (LString s) => None
  | Some (LUserdata p) | Some (LLightUserdata p) =>
      Some (mkLuaValue vtUserData (member_u p))
  | _ => Some (mkLuaValue vtErr zeroed)
  end.

Definition supported_tag (o : option TValue) : bool :=
  match o with
  | Some (LBoolean _) | Some (LInteger _) | Some (LFloat _)
  | Some (LString _) | Some (LUserdata _) | Some (LLightUserdata _) => true
  | _ => false
  end.

(** A dynamic value that exactly matches a parameter type, with the native
    value it stands for: a boolean for [bool], an integer for [int], a
    float for [float], a text for [std::string], a full or light userdata
    for a pointer. *)
Definition native_of (T : CType) (v : TValue) : option NativeVal :=
  match T, v with
  | CBool, LBoolean b => Some (NBool b)
  | CInt, LInteger n => Some (NInt (CNum.to_int n))
  | CFloat, LFloat x => Some (NFloat (CNum.float_of_double x))
  | CString, LString s => Some (NString (CStr.c_str s))
  | CPointer _, LUserdata p | CPointer _, LLightUserdata p => Some (NPtr p)
  | _, _ => None
  end.

Definition matches (T : CType) (v : TValue) : Prop :=
  is_some (native_of T v) = true.

(** The stack index of the [k]-th argument (counting from 0). *)
Definition position (k : nat) : Z := Z.of_nat k + 1.

(** The Lua value [PushResult] pushes for a native value, and the runtime
    entry point it goes through (see [PushResult_run]). *)
Definition encoded (v : NativeVal) : TValue :=
  match v with
  | NPtr p => LLightUserdata p
  | NInt n => LInteger (CNum.to_lua_Integer n)
  | NFloat f => LFloat (CNum.double_of_float f)
  | NBool b => LBoolean b
  | NString s => LString (CStr.c_str s)
  end.

Definition push_api (v : NativeVal) : ApiFn :=
  match v with
  | NPtr _ => api_pushlightuserdata
  | NInt _ => api_pushinteger
  | NFloat _ => api_pushnumber
  | NBool _ => api_pushboolean
  | NString _ => api_pushstring
  end.

(** One element of the argument tuple, as [PopArgs] extracts it from the
    decoded value. *)
Definition extract (T : CType) (val : LuaValue) : option NativeVal :=
  if is_pointer T then option_map NPtr (GetValue_voidp val) else GetValue T val.

(** The element [PopArgs] builds from a slot: the extraction of the decoded
    slot, when the slot decodes. *)
Definition extract_slot (T : CType) (o : option TValue) : option NativeVal :=
  match decoded o with
  | Some val => extract T val
  | None => None
  end.

(** A list of parameter types without [std::string]. *)
Definition text_free (Ts : list CType) : Prop :=
  Forall (fun T => T <> CString) Ts.

Definition is_text (v : NativeVal) : bool :=
  match v with NString _ => true | _ => false end.

(** A world that differs from [w] only by reads of the runtime and
    diagnostics. *)
Definition only_read (w w' : World) : Prop :=
  stack w' = stack w /\ invoked w' = invoked w /\
  exists l, api w' = api w ++ l /\ pushes l = 0%nat.

(** Push a native value and decode the slot it landed in. *)
Definition encode_decode (v : NativeVal) : M LuaValue :=
  top <- lua_gettop ;;
  PushResult v ;;
  LuaValue_ctor (top + 1).

(** The decoded value of the kind of [v] whose payload is [v]. *)
Definition as_LuaValue (v : NativeVal) : LuaValue :=
  match v with
  | NBool b => mkLuaValue vtBool (member_b b)
  | NInt n => mkLuaValue vtInt (member_i n)
  | NFloat f => mkLuaValue vtNumber (member_f f)
  | NString s => mkLuaValue vtString (member_s s)
  | NPtr p => mkLuaValue vtUserData (member_u p)
  end.

(** A native value is a value of its C++ type: an [int] has 32 bits, a
    [float] is a binary32 number. *)
Definition well_formed (v : NativeVal) : Prop :=
  match v with
  | NInt n => CNum.is_int n
  | NFloat f => CNum.is_float f
  | _ => True
  end.

(** The runtime entry points that read the payload of a slot. *)
Definition is_reader (f : ApiFn) : bool :=
  match f with
  | api_toboolean | api_tointegerx | api_tonumberx | api_tolstring
  | api_touserdata => true
  | _ => false
  end.

(** Recorded calls that are neither reads of a payload nor pushes. *)
Definition only_queries (l : list (ApiFn * Z)) : Prop :=
  Forall (fun e => is_reader (fst e) = false /\ is_push (fst e) = false) l.

(** The parameter types whose check accepts one kind of value only. *)
Definition strict_param (T : CType) : bool :=
  match T with CBool | CInt | CPointer _ => true | _ => false end.

(** A value that passes the check of a parameter although the decoder
    writes another member than the one the extraction reads: a text for
    [float], a number for [std::string]. *)
Definition lenient_gap (T : CType) (v : TValue) : bool :=
  match T, v with
  | CFloat, LString _ => true
  | CString, LInteger _ | CString, LFloat _ => true
  | _, _ => false
  end.

(** The tag of a decoded value agrees with the member that was assigned,
    which is never the text member; an [int] payload has 32 bits. *)
Definition well_tagged (val : LuaValue) : Prop :=
  match type val, value val with
  | vtBool, member_b _ => True
  | vtInt, member_i n => CNum.is_int n
  | vtNumber, member_f _ => True
  | vtUserData, member_u _ => True
  | vtErr, zeroed => True
  | _, _ => False
  end.

(** A native value of the kind a parameter type asks for, among the kinds
    the marshaler can deliver. *)
Definition has_kind (T : CType) (a : NativeVal) : Prop :=
  match T, a with
  | CBool, NBool _ => True
  | CInt, NInt n => CNum.is_int n
  | CFloat, NFloat _ => True
  | CPointer _, NPtr _ => True
  | _, _ => False
  end.

(** What [PopArgs] answers on a stack (see [answer_PopArgs]): the
    extraction of every decoded slot, if all of them have a result. *)
Fixpoint pop_all (Ts : list CType) (st : list TValue) (i : Z)
  : option (list NativeVal) :=
  match Ts with
  | [] => Some []
  | T :: Ts' =>
      match extract_slot T (index2addr st i) with
      | Some a => option_map (cons a) (pop_all Ts' st (i + 1))
      | None => None
      end
  end.

(** [v] is the multiple of the spacing of the binary32 numbers around the
    positive integer [a] that is nearest to [a], the even multiple when two
    are equally near.  The spacing is 1 up to 24 bits and doubles with
    every further bit of [a]. *)
Definition nearest_on_grid (a v : Z) : Prop :=
  let k := Z.max 0 (Z.log2 a + 1 - 24) in
  v mod 2 ^ k = 0
  /\ 2 * Z.abs (v - a) <= 2 ^ k
  /\ (2 * Z.abs (v - a) = 2 ^ k -> Z.even (v / 2 ^ k) = true).

(** [x] is the integer [n] converted to [float]: rounded to nearest, ties
    to even, with the sign of [n]. *)
Definition float_of_integer (n : Z) (x : CNum.fp) : Prop :=
  match x with
  | S754_zero s => n = 0 /\ s = false
  | S754_finite s m e =>
      s = (n <? 0) /\ 0 <= e /\ nearest_on_grid (Z.abs n) (Zpos m * 2 ^ e)
  | _ => False
  end.

(** The floating value [x] is the integer [n]. *)
Definition integral_value (x : CNum.fp) (n : Z) : Prop :=
  match x with
  | S754_zero _ => n = 0
  | S754_finite s m e =>
      0 <= e /\ n = if s then - (Zpos m * 2 ^ e) else Zpos m * 2 ^ e
  | _ => False
  end.

(** [z] is the integer part of the floating value [x]: the integer next to
    [x] toward zero. *)
Definition truncation_of (x : CNum.fp) (z : Z) : Prop :=
  match x with
  | S754_zero _ => z = 0
  | S754_finite s m e =>
      (if s then z <= 0 else 0 <= z)
      /\ Z.abs z * 2 ^ Z.max 0 (- e) <= Zpos m * 2 ^ Z.max 0 e
         < (Z.abs z + 1) * 2 ^ Z.max 0 (- e)
  | _ => False
  end.

(** The bound function that returns its first argument. *)
Definition first_arg (args : list NativeVal) : NativeVal :=
  match args with a :: _ => a | [] => NBool false end.

Definition echo_binder (T : CType) : Binder := mkBinder RValue [T] first_arg.

(** The Lua value that comes back when a value that is no text goes
    through the decoder and the result encoder. *)
Definition echoed (v : TValue) : TValue :=
  match v with
  | LInteger n => LInteger (CNum.to_lua_Integer (CNum.to_int n))
  | LFloat x => LFloat (CNum.double_of_float (CNum.float_of_double x))
  | LUserdata p => LLightUserdata p
  | _ => v
  end.

(** The Lua values that come back as they were. *)
Definition fits_native (v : TValue) : Prop :=
  match v with
  | LInteger n => CNum.is_int n
  | LFloat x => CNum.is_float x
  | LString _ | LUserdata _ => False
  | _ => True
  end.

(** Two more sample functions: [void strict(bool, int, pointer to Foo)]
    and [void takes_float(float)]. *)
Definition strict_binder : Binder :=
  mkBinder RVoid [CBool; CInt; CPointer "Foo"] (fun _ => tt).

Definition float_binder : Binder := mkBinder RVoid [CFloat] (fun _ => tt).

(** And [void takes_text(std::string)]. *)
Definition text_binder : Binder := mkBinder RVoid [CString] (fun _ => tt).

(* ===================================================================== *)
(** ** Running the runtime queries *)
(* ===================================================================== *)

Lemma logged_logged (w : World) (l1 l2 : list (ApiFn * Z)) :
  logged (logged w l1) l2 = logged w (l1 ++ l2).
Proof. unfold logged; simpl. now rewrite app_assoc. Qed.

Lemma logged_nil (w : World) : logged w [] = w.
Proof. destruct w; unfold logged; simpl. now rewrite app_nil_r. Qed.

Lemma query_run {A} (f : ApiFn) (idx : Z) (q : list TValue -> A) (w : World) :
  query f idx q w = Some (q (stack w), logged w [(f, idx)]).
Proof. reflexivity. Qed.

Lemma reads_at_one (P : Z -> Prop) (f : ApiFn) (i : Z) :
  is_push f = false -> P i -> reads_at P [(f, i)].
Proof. intros Hf Hi. constructor; [split; assumption | constructor]. Qed.

Lemma reads_at_app (P : Z -> Prop) (l1 l2 : list (ApiFn * Z)) :
  reads_at P l1 -> reads_at P l2 -> reads_at P (l1 ++ l2).
Proof. unfold reads_at. intros H1 H2. apply Forall_app. now split. Qed.

Lemma reads_at_weaken (P Q : Z -> Prop) (l : list (ApiFn * Z)) :
  (forall i, P i -> Q i) -> reads_at P l -> reads_at Q l.
Proof.
  intros HPQ H. unfold reads_at in *.
  eapply Forall_impl; [| exact H]. intros e [Hf Hi]. split; auto.
Qed.

Lemma reads_at_pushes (P : Z -> Prop) (l : list (ApiFn * Z)) :
  reads_at P l -> pushes l = 0%nat.
Proof.
  unfold pushes. induction 1 as [| e l [He _] _ IH]; simpl; [reflexivity |].
  now rewrite He.
Qed.

Lemma pushes_app (l1 l2 : list (ApiFn * Z)) :
  pushes (l1 ++ l2) = (pushes l1 + pushes l2)%nat.
Proof. unfold pushes. now rewrite filter_app, length_app. Qed.

(** The stack index of argument [k] denotes the [k]-th slot. *)
Lemma index2addr_position (st : list TValue) (k : nat) :
  index2addr st (position k) = nth_error st k.
Proof.
  unfold index2addr, stack_pos, position.
  replace (0 <? Z.of_nat k + 1) with true by (symmetry; apply Z.ltb_lt; lia).
  destruct (Z.of_nat k + 1 <=? Z.of_nat (List.length st)) eqn:E.
  - f_equal. lia.
  - apply Z.leb_gt in E.
    replace (Z.of_nat k + 1 =? LUA_REGISTRYINDEX) with false
      by (symmetry; apply Z.eqb_neq; unfold LUA_REGISTRYINDEX; lia).
    symmetry. apply nth_error_None. lia.
Qed.

Lemma position_succ (k : nat) : position k + 1 = position (S k).
Proof. unfold position. lia. Qed.

(** [CheckSingleArg] answers [check_ok] and only reads slot [i]. *)
Lemma CheckSingleArg_run (T : CType) (i : Z) (w : World) :
  exists l, CheckSingleArg T i w = Some (check_ok T (stack w) i, logged w l)
            /\ reads_at (fun j => j = i) l.
Proof.
  assert (Hgen : exists l,
    (a <- lua_isuserdata i ;; if a then ret true else lua_islightuserdata i) w
      = Some (heavy_or_light (slot (stack w) i), logged w l)
    /\ reads_at (fun j => j = i) l).
  { destruct (heavy_or_light (slot (stack w) i)) eqn:E.
    - exists [(api_isuserdata, i)]. split; [| now apply reads_at_one].
      unfold bind, lua_isuserdata. rewrite query_run.
      unfold heavy_or_light in E.
      destruct (slot (stack w) i); try discriminate; reflexivity.
    - exists [(api_isuserdata, i); (api_type, i)].
      split; [| apply (reads_at_app _ [_] [_]); now apply reads_at_one].
      unfold bind, lua_isuserdata. rewrite query_run. cbv beta iota.
      unfold heavy_or_light in E.
      unfold slot in *.
      destruct (index2addr (stack w) i) as [[]|] eqn:Ei; try discriminate;
        unfold lua_islightuserdata, lua_type, bind; rewrite query_run;
        rewrite logged_logged; unfold ret, type_at; simpl stack;
        rewrite Ei; reflexivity. }
  destruct T; try exact Hgen;
    (eexists; split; [reflexivity | now apply reads_at_one]).
Qed.

Lemma answer_CheckSingleArg (T : CType) (i : Z) (w : World) :
  answer (CheckSingleArg T i) w = Some (check_ok T (stack w) i).
Proof.
  destruct (CheckSingleArg_run T i w) as (l & E & _).
  unfold answer. now rewrite E.
Qed.

(** [CheckArgs] answers the conjunction of the single checks, reading no
    slot outside the parameters' positions. *)
Lemma CheckArgs_run (Rest : list CType) :
  forall (Arg : CType) (i : Z) (w : World),
  exists l, CheckArgs Arg Rest i w
            = Some (check_all (Arg :: Rest) (stack w) i, logged w l)
            /\ reads_at (fun j => i <= j <= i + Z.of_nat (List.length Rest)) l.
Proof.
  induction Rest as [| Arg' Rest' IH]; intros Arg i w.
  - destruct (CheckSingleArg_run Arg i w) as (l & E & Hl).
    exists l. split.
    + simpl. unfold bind. rewrite E.
      destruct (check_ok Arg (stack w) i); reflexivity.
    + eapply reads_at_weaken; [| exact Hl]. simpl. intros; lia.
  - destruct (CheckSingleArg_run Arg i w) as (l & E & Hl).
    change (CheckArgs Arg (Arg' :: Rest') i w)
      with ((ok <- CheckSingleArg Arg i ;;
             if negb ok then ret false else CheckArgs Arg' Rest' (i + 1)) w).
    unfold bind. rewrite E.
    change (check_all (Arg :: Arg' :: Rest') (stack w) i)
      with (check_ok Arg (stack w) i && check_all (Arg' :: Rest') (stack w) (i + 1)).
    destruct (check_ok Arg (stack w) i); cbv beta iota delta [negb].
    + destruct (IH Arg' (i + 1) (logged w l)) as (l' & E' & Hl').
      exists (l ++ l'). split.
      * rewrite E'. rewrite logged_logged. reflexivity.
      * apply reads_at_app.
        -- eapply reads_at_weaken; [| exact Hl]. simpl. intros; lia.
        -- eapply reads_at_weaken; [| exact Hl'].
           intros j Hj. change (List.length (Arg' :: Rest')) with (S (List.length Rest')).
           rewrite Nat2Z.inj_succ. cbv beta in Hj. lia.
    + exists l. split; [reflexivity |].
      eapply reads_at_weaken; [| exact Hl]. simpl. intros; lia.
Qed.

(** Left-to-right evaluation with early exit: when the checks of the
    first [k] parameters succeed and the next one fails, [CheckArgs] answers
    [false] having read only the slots up to that one. *)
Lemma CheckArgs_first_mismatch (Rest : list CType) :
  forall (Arg : CType) (i : Z) (w : World) (k : nat) (T : CType),
  (forall j U, (j < k)%nat -> nth_error (Arg :: Rest) j = Some U ->
               check_ok U (stack w) (i + Z.of_nat j) = true) ->
  nth_error (Arg :: Rest) k = Some T ->
  check_ok T (stack w) (i + Z.of_nat k) = false ->
  exists l, CheckArgs Arg Rest i w = Some (false, logged w l)
            /\ reads_at (fun j => i <= j <= i + Z.of_nat k) l.
Proof.
  induction Rest as [| Arg' Rest' IH]; intros Arg i w k T Hpre Hk Hbad.
  - destruct k as [| k]; [| destruct k; discriminate].
    injection Hk as <-. rewrite Z.add_0_r in Hbad.
    destruct (CheckSingleArg_run Arg i w) as (l & E & Hl).
    exists l. split.
    + simpl. unfold bind. rewrite E, Hbad. reflexivity.
    + eapply reads_at_weaken; [| exact Hl]. simpl. intros; lia.
  - destruct (CheckSingleArg_run Arg i w) as (l & E & Hl).
    change (CheckArgs Arg (Arg' :: Rest') i w)
      with ((ok <- CheckSingleArg Arg i ;;
             if negb ok then ret false else CheckArgs Arg' Rest' (i + 1)) w).
    unfold bind. rewrite E.
    destruct k as [| k].
    + injection Hk as <-. rewrite Z.add_0_r in Hbad. rewrite Hbad.
      exists l. split; [reflexivity |].
      eapply reads_at_weaken; [| exact Hl]. simpl. intros; lia.
    + assert (H0 : check_ok Arg (stack w) i = true).
      { specialize (Hpre 0%nat Arg). rewrite Z.add_0_r in Hpre.
        apply Hpre; [lia | reflexivity]. }
      rewrite H0. cbv beta iota delta [negb].
      destruct (IH Arg' (i + 1) (logged w l) k T) as (l' & E' & Hl').
      * intros j U Hj HU. simpl stack.
        replace (i + 1 + Z.of_nat j) with (i + Z.of_nat (S j)) by lia.
        apply Hpre; [lia | exact HU].
      * exact Hk.
      * simpl stack.
        replace (i + 1 + Z.of_nat k) with (i + Z.of_nat (S k)) by lia.
        exact Hbad.
      * exists (l ++ l'). split.
        -- rewrite E', logged_logged. reflexivity.
        -- apply reads_at_app.
           ++ eapply reads_at_weaken; [| exact Hl]. simpl. intros; lia.
           ++ eapply reads_at_weaken; [| exact Hl']. simpl. intros; lia.
Qed.

Lemma check_all_false (Ts : list CType) :
  forall (st : list TValue) (i : Z) (k : nat) (T : CType),
  nth_error Ts k = Some T ->
  check_ok T st (i + Z.of_nat k) = false ->
  check_all Ts st i = false.
Proof.
  induction Ts as [| U Ts IH]; intros st i k T Hk Hbad.
  - destruct k; discriminate.
  - destruct k as [| k]; simpl in *.
    + injection Hk as <-. rewrite Z.add_0_r in Hbad. now rewrite Hbad.
    + apply andb_false_iff. right. apply (IH st (i + 1) k T Hk).
      replace (i + 1 + Z.of_nat k) with (i + Z.pos (Pos.of_succ_nat k)) by lia.
      exact Hbad.
Qed.

(** The constructor of [LuaValue] builds [decoded] of the slot, when there
    is one, and has no defined result otherwise.  It reads only that slot,
    leaves the stack alone and writes a diagnostic exactly when the tag is
    unsupported. *)
Lemma LuaValue_ctor_run (i : Z) (w : World) :
  match decoded (index2addr (stack w) i) with
  | Some val =>
      exists l,
        LuaValue_ctor i w
        = Some (val,
                mkWorld (stack w)
                        (cout w ++ if supported_tag (index2addr (stack w) i)
                                   then [] else [msg_unsupported])
                        (invoked w) (api w ++ l))
        /\ reads_at (fun j => j = i) l
  | None => LuaValue_ctor i w = None
  end.
Proof.
  unfold LuaValue_ctor, lua_type, bind. rewrite query_run. cbv beta iota.
  unfold type_at.
  destruct (index2addr (stack w) i) as [[]|] eqn:Ei; simpl;
    unfold lua_toboolean, lua_isinteger, lua_tointeger, lua_tonumber,
           lua_tostring, lua_touserdata, bind, query, log, get_stack, ret,
           print, slot, lift; simpl; repeat (rewrite Ei; simpl);
    rewrite ?app_nil_r, <- ?app_assoc; simpl;
    first [ reflexivity
          | (eexists; split; [reflexivity |]);
            repeat (constructor; [split; reflexivity |]); constructor ].
Qed.

Lemma LuaValue_ctor_defined (i : Z) (w : World) (val : LuaValue) :
  decoded (index2addr (stack w) i) = Some val ->
  exists l,
    LuaValue_ctor i w
    = Some (val,
            mkWorld (stack w)
                    (cout w ++ if supported_tag (index2addr (stack w) i)
                               then [] else [msg_unsupported])
                    (invoked w) (api w ++ l))
    /\ reads_at (fun j => j = i) l.
Proof.
  intros H. pose proof (LuaValue_ctor_run i w) as R. now rewrite H in R.
Qed.

Lemma LuaValue_ctor_inv (i : Z) (w : World) (val : LuaValue) (w' : World) :
  LuaValue_ctor i w = Some (val, w') ->
  decoded (index2addr (stack w) i) = Some val
  /\ exists l,
       w' = mkWorld (stack w)
                    (cout w ++ if supported_tag (index2addr (stack w) i)
                               then [] else [msg_unsupported])
                    (invoked w) (api w ++ l)
       /\ reads_at (fun j => j = i) l.
Proof.
  intros H. pose proof (LuaValue_ctor_run i w) as R.
  destruct (decoded (index2addr (stack w) i)) as [val0 |].
  - destruct R as (l & E & Hl). rewrite E in H. injection H as <- <-.
    split; [reflexivity |]. exists l. now split.
  - rewrite R in H. discriminate.
Qed.

Lemma answer_LuaValue_ctor (i : Z) (w : World) :
  answer (LuaValue_ctor i) w = decoded (index2addr (stack w) i).
Proof.
  pose proof (LuaValue_ctor_run i w) as R. unfold answer.
  destruct (decoded (index2addr (stack w) i)) as [val |].
  - destruct R as (l & E & _). now rewrite E.
  - now rewrite R.
Qed.

Lemma only_read_refl (w : World) : only_read w w.
Proof.
  repeat split. exists []. split; [now rewrite app_nil_r | reflexivity].
Qed.

Lemma only_read_trans (w1 w2 w3 : World) :
  only_read w1 w2 -> only_read w2 w3 -> only_read w1 w3.
Proof.
  intros (S1 & I1 & l1 & A1 & P1) (S2 & I2 & l2 & A2 & P2).
  repeat split; try congruence.
  exists (l1 ++ l2). split.
  - rewrite A2, A1. now rewrite app_assoc.
  - rewrite pushes_app, P1, P2. reflexivity.
Qed.

Lemma only_read_logged (P : Z -> Prop) (w : World) (l : list (ApiFn * Z)) :
  reads_at P l -> only_read w (logged w l).
Proof.
  intros Hl. repeat split. exists l. split; [reflexivity |].
  eapply reads_at_pushes; eassumption.
Qed.

Lemma LuaValue_ctor_only_read (i : Z) (w : World) (val : LuaValue) (w' : World) :
  LuaValue_ctor i w = Some (val, w') -> only_read w w'.
Proof.
  intros H. apply LuaValue_ctor_inv in H as (_ & l & -> & Hl).
  repeat split. exists l. split; [reflexivity |].
  eapply reads_at_pushes; eassumption.
Qed.

(** One step of [PopArgs]. *)
Lemma PopArgs_unfold (Arg : CType) (Rest : list CType) (i : Z) :
  PopArgs Arg Rest i =
  (val <- LuaValue_ctor i ;;
   a <- lift (extract Arg val) ;;
   match Rest with
   | [] => ret [a]
   | Arg' :: Rest' => rest <- PopArgs Arg' Rest' (i + 1) ;; ret (a :: rest)
   end).
Proof. destruct Rest; reflexivity. Qed.

(** Whatever [PopArgs] returns, it has only read the runtime, and the
    tuple has one element per parameter. *)
Lemma PopArgs_only_read (Rest : list CType) :
  forall (Arg : CType) (i : Z) (w : World) (args : list NativeVal) (w' : World),
  PopArgs Arg Rest i w = Some (args, w') ->
  only_read w w' /\ List.length args = S (List.length Rest).
Proof.
  induction Rest as [| Arg' Rest' IH]; intros Arg i w args w';
    rewrite PopArgs_unfold; unfold bind;
    destruct (LuaValue_ctor i w) as [[val w1] |] eqn:E1; try discriminate;
    apply LuaValue_ctor_only_read in E1;
    unfold lift; destruct (extract Arg val) as [a |]; try discriminate.
  - intros [= <- <-]. split; [assumption | reflexivity].
  - destruct (PopArgs Arg' Rest' (i + 1) w1) as [[rest w2] |] eqn:E2;
      try discriminate.
    intros [= <- <-]. apply IH in E2 as [E2 Hlen]. split.
    + eapply only_read_trans; eassumption.
    + simpl. now rewrite Hlen.
Qed.

Lemma PushResult_run (v : NativeVal) (w : World) :
  PushResult v w =
  Some (tt, mkWorld (stack w ++ [encoded v]) (cout w) (invoked w)
                    (api w ++ [(push_api v, 0)])).
Proof. destruct v; reflexivity. Qed.

Lemma pushes_push_api (v : NativeVal) : pushes [(push_api v, 0)] = 1%nat.
Proof. destruct v; reflexivity. Qed.

(** A matching value passes the check of its parameter and is extracted
    as [native_of] says. *)
Lemma matches_check_ok (T : CType) (v : TValue) (st : list TValue) (i : Z) :
  matches T v -> index2addr st i = Some v -> check_ok T st i = true.
Proof.
  unfold matches. intros Hm Hi.
  destruct T, v; try discriminate;
    unfold check_ok, slot, type_at; rewrite Hi; reflexivity.
Qed.

Lemma matches_extract (T : CType) (v : TValue) :
  matches T v -> T <> CString ->
  exists val, decoded (Some v) = Some val /\ extract T val = native_of T v.
Proof.
  unfold matches. intros Hm HT.
  destruct T, v; try discriminate; try contradiction;
    (eexists; split; reflexivity).
Qed.

Lemma matches_extract_slot (T : CType) (v : TValue) :
  matches T v -> T <> CString -> extract_slot T (Some v) = native_of T v.
Proof.
  intros Hm HT. destruct (matches_extract T v Hm HT) as (val & Ed & Ex).
  unfold extract_slot. now rewrite Ed.
Qed.

(** A matching text has no decoded value. *)
Lemma matches_text (v : TValue) :
  matches CString v -> decoded (Some v) = None.
Proof.
  unfold matches. destruct v; try discriminate; reflexivity.
Qed.

Lemma matches_supported (T : CType) (v : TValue) :
  matches T v -> supported_tag (Some v) = true.
Proof.
  unfold matches. destruct T, v; try discriminate; reflexivity.
Qed.

Lemma skipn_cons_inv {A} (k : nat) :
  forall (l : list A) (a : A) (r : list A),
  skipn k l = a :: r -> nth_error l k = Some a /\ skipn (S k) l = r.
Proof.
  induction k as [| k IH]; intros l a r H.
  - destruct l; [discriminate |]. simpl in H. injection H as -> ->. now split.
  - destruct l; [discriminate |]. simpl in H. apply IH in H. exact H.
Qed.

Lemma check_all_matching (Ts : list CType) :
  forall (k : nat) (st vs : list TValue),
  skipn k st = vs -> Forall2 matches Ts vs ->
  check_all Ts st (position k) = true.
Proof.
  induction Ts as [| T Ts IH]; intros k st vs Hs HF; [reflexivity |].
  inversion HF as [| T' v Ts' vs' Hm HF' ]; subst.
  symmetry in H1. apply skipn_cons_inv in H1 as [Hk Hs].
  simpl. rewrite position_succ.
  rewrite (matches_check_ok T v st (position k) Hm)
    by (rewrite index2addr_position; exact Hk).
  simpl. eapply IH; eassumption.
Qed.

(** [PopArgs] on matching arguments, none of them a text: the tuple
    holds, in order, the native value of each slot; nothing but reads
    happened. *)
Lemma PopArgs_matching (Rest : list CType) :
  forall (Arg : CType) (k : nat) (w : World) (vs : list TValue),
  skipn k (stack w) = vs ->
  Forall2 matches (Arg :: Rest) vs ->
  text_free (Arg :: Rest) ->
  exists args l,
    PopArgs Arg Rest (position k) w = Some (args, logged w l)
    /\ reads_at (fun j => position k <= j) l
    /\ map Some args
       = map (fun p => native_of (fst p) (snd p)) (combine (Arg :: Rest) vs).
Proof.
  induction Rest as [| Arg' Rest' IH]; intros Arg k w vs Hs HF Htf;
    inversion HF as [| T' v Ts' vs' Hm HF' ]; subst;
    inversion Htf as [| T'' Ts'' HT Htf']; subst;
    symmetry in H1; apply skipn_cons_inv in H1 as [Hk Hs];
    rewrite PopArgs_unfold; unfold bind;
    destruct (matches_extract _ _ Hm HT) as (val & Ed & Ex);
    destruct (LuaValue_ctor_defined (position k) w val) as (l & E & Hl);
    try (rewrite index2addr_position, Hk; exact Ed);
    rewrite index2addr_position, Hk, (matches_supported _ _ Hm), app_nil_r in E;
    rewrite E; rewrite Ex;
    pose proof Hm as Hm'; unfold matches in Hm';
    destruct (native_of Arg v) as [a |] eqn:Ea; try discriminate;
    unfold lift.
  - inversion HF'; subst. exists [a], l. repeat split.
    + eapply reads_at_weaken; [| exact Hl]. intros; simpl in *; lia.
    + simpl. now rewrite Ea.
  - destruct (IH Arg' (S k) (logged w l) vs' Hs HF' Htf')
      as (rest & l' & E' & Hl' & Hmap).
    rewrite position_succ. change (mkWorld (stack w) (cout w) (invoked w) (api w ++ l)) with (logged w l).
    rewrite E'. exists (a :: rest), (l ++ l'). repeat split.
    + rewrite logged_logged. reflexivity.
    + apply reads_at_app.
      * eapply reads_at_weaken; [| exact Hl]. intros; simpl in *; lia.
      * eapply reads_at_weaken; [| exact Hl']. unfold position. intros; simpl in *; lia.
    + simpl. rewrite Ea. f_equal. exact Hmap.
Qed.

Lemma invoke_void (f : list NativeVal -> unit) (args : list NativeVal) (w : World) :
  invoke RVoid f args w
  = Some (0, mkWorld (stack w) (cout w) (invoked w ++ [args]) (api w)).
Proof. reflexivity. Qed.

Lemma invoke_value (f : list NativeVal -> NativeVal) (args : list NativeVal)
      (w : World) :
  invoke RValue f args w
  = Some (1, mkWorld (stack w ++ [encoded (f args)]) (cout w)
                     (invoked w ++ [args])
                     (api w ++ [(push_api (f args), 0)])).
Proof.
  unfold invoke, bind, call. rewrite PushResult_run. reflexivity.
Qed.

(** The trampoline after a failed arity test. *)
Lemma StaticBinding_arity (B : Binder) (w : World) :
  List.length (stack w) <> List.length (Args B) ->
  StaticBinding B w
  = Some (0, mkWorld (stack w) (cout w ++ [msg_count]) (invoked w)
                     (api w ++ [(api_gettop, 0)])).
Proof.
  intros Hne. unfold StaticBinding, lua_gettop, bind. rewrite query_run.
  cbv beta iota.
  replace (Z.of_nat (List.length (stack w)) =? Z.of_nat (List.length (Args B)))
    with false by (symmetry; apply Z.eqb_neq; lia).
  reflexivity.
Qed.

(** The trampoline once the arity test has passed, for a function with
    parameters. *)
Lemma StaticBinding_checked (B : Binder) (w : World) (Arg : CType)
      (Rest : list CType) :
  List.length (stack w) = List.length (Args B) ->
  Args B = Arg :: Rest ->
  StaticBinding B w
  = (ok <- CheckArgs Arg Rest 1 ;;
     if negb ok then print msg_type ;; ret 0
     else args <- PopArgs Arg Rest 1 ;; invoke (Return B) (Func B) args)
      (logged w [(api_gettop, 0)]).
Proof.
  intros Hlen HArgs. unfold StaticBinding, lua_gettop.
  unfold bind at 1. rewrite query_run. cbv beta iota.
  rewrite Hlen, Z.eqb_refl. cbv beta iota delta [negb].
  rewrite HArgs. reflexivity.
Qed.

Lemma StaticBinding_nullary (B : Binder) (w : World) :
  stack w = [] -> Args B = [] ->
  StaticBinding B w = invoke (Return B) (Func B) [] (logged w [(api_gettop, 0)]).
Proof.
  intros Hst HArgs. unfold StaticBinding, lua_gettop.
  unfold bind at 1. rewrite query_run. cbv beta iota.
  rewrite Hst, HArgs. reflexivity.
Qed.

(** Element [k] of a tuple of native values of matching slots, none of
    them a text, is the extraction for parameter [k] applied to the decoded
    slot [k]. *)
Lemma matching_nth_extract (Ts : list CType) (vs : list TValue) :
  Forall2 matches Ts vs ->
  text_free Ts ->
  forall (args : list NativeVal) (k : nat) (T : CType),
  map Some args = map (fun p => native_of (fst p) (snd p)) (combine Ts vs) ->
  nth_error Ts k = Some T ->
  exists val, decoded (nth_error vs k) = Some val
              /\ nth_error args k = extract T val.
Proof.
  induction 1 as [| T0 v Ts vs Hm HF IH]; intros Htf args k T Hmap Hk.
  - destruct k; discriminate.
  - inversion Htf as [| T' Ts' HT Htf']; subst.
    destruct args as [| a r]; [discriminate |].
    simpl in Hmap. injection Hmap as Ha Hr.
    destruct k as [| k].
    + injection Hk as <-. cbn [nth_error].
      destruct (matches_extract _ _ Hm HT) as (val & Ed & Ex).
      exists val. split; [exact Ed |]. now rewrite Ex.
    + cbn [nth_error] in *. apply IH; assumption.
Qed.

(* ===================================================================== *)
(** ** Conversions between native and runtime numbers, C strings *)
(* ===================================================================== *)

Lemma to_int_id (z : Z) : CNum.is_int z -> CNum.to_int z = z.
Proof.
  unfold CNum.is_int, CNum.in_range, CNum.to_int, CNum.wrap.
  change (2 ^ (32 - 1)) with 2147483648. change (2 ^ 32) with 4294967296.
  intros H. rewrite Z.mod_small; lia.
Qed.

Lemma to_lua_Integer_id (z : Z) : CNum.is_int z -> CNum.to_lua_Integer z = z.
Proof.
  unfold CNum.is_int, CNum.in_range, CNum.to_lua_Integer, CNum.wrap.
  change (2 ^ (32 - 1)) with 2147483648.
  change (2 ^ (64 - 1)) with 9223372036854775808.
  change (2 ^ 64) with 18446744073709551616.
  intros H. rewrite Z.mod_small; lia.
Qed.

(** Every [float] is a [double]: widening keeps the value, and narrowing
    it again gives it back. *)
Lemma is_float_is_double (x : CNum.fp) : CNum.is_float x -> CNum.is_double x.
Proof.
  unfold CNum.is_float, CNum.is_double, CNum.fp_in_format.
  destruct x as [| | | s m e]; try reflexivity.
  unfold emin. intros H.
  apply andb_true_iff in H as [H H4]. apply andb_true_iff in H as [H H3].
  apply andb_true_iff in H as [H1 H2].
  apply Z.leb_le in H2, H3, H4.
  rewrite H1. cbn [andb].
  repeat (apply andb_true_iff; split); apply Z.leb_le; lia.
Qed.

Lemma float_double_float (x : CNum.fp) :
  CNum.is_float x -> CNum.float_of_double (CNum.double_of_float x) = x.
Proof.
  intros H. pose proof (is_float_is_double x H) as H'.
  unfold CNum.float_of_double, CNum.double_of_float, CNum.fp_round.
  unfold CNum.is_float, CNum.is_double in *. now rewrite H', H.
Qed.

(** The cast of a finite [float] to [int], when it has a result, is the
    float cut toward zero: same sign, and magnitude the integer part. *)
Lemma c_str_no_NUL (s : string) : CStr.has_NUL s = false -> CStr.c_str s = s.
Proof.
  induction s as [| c r IH]; simpl; [reflexivity |].
  destruct (Ascii.eqb c CStr.NUL); simpl; [discriminate |].
  intros H. now rewrite IH.
Qed.

Lemma c_str_idempotent (s : string) : CStr.c_str (CStr.c_str s) = CStr.c_str s.
Proof.
  induction s as [| c r IH]; simpl; [reflexivity |].
  destruct (Ascii.eqb c CStr.NUL) eqn:E; simpl; [reflexivity |].
  now rewrite E, IH.
Qed.

Lemma index2addr_top (st : list TValue) (v : TValue) :
  index2addr (st ++ [v]) (Z.of_nat (List.length st) + 1) = Some v.
Proof.
  change (Z.of_nat (List.length st) + 1) with (position (List.length st)).
  rewrite index2addr_position, nth_error_app2 by lia.
  now rewrite Nat.sub_diag.
Qed.

(** Pushing a native value and decoding the new top slot. *)
Lemma encode_decode_run (v : NativeVal) (w : World) :
  answer (encode_decode v) w = decoded (Some (encoded v)).
Proof.
  unfold answer, encode_decode, lua_gettop. unfold bind at 1.
  rewrite query_run. cbv beta iota. unfold bind at 1.
  rewrite PushResult_run. cbv beta iota.
  match goal with
  | |- context [LuaValue_ctor ?i ?w1] =>
      pose proof (answer_LuaValue_ctor i w1) as Ha
  end.
  unfold answer in Ha. rewrite Ha. simpl stack. now rewrite index2addr_top.
Qed.

(* ===================================================================== *)
(** ** The conversions between [int] and [float] *)
(* ===================================================================== *)

Lemma digits2_pos_size (p : positive) : digits2_pos p = Pos.size p.
Proof. induction p; simpl; congruence. Qed.

Lemma digits2_log2 (p : positive) :
  Zpos (digits2_pos p) = Z.log2 (Zpos p) + 1.
Proof.
  rewrite digits2_pos_size. destruct p; simpl; try reflexivity;
    rewrite Pos2Z.inj_succ; lia.
Qed.

Lemma digits2_bounds (p : positive) :
  2 ^ (Zpos (digits2_pos p) - 1) <= Zpos p < 2 ^ Zpos (digits2_pos p).
Proof.
  rewrite digits2_log2.
  pose proof (Z.log2_spec (Zpos p) ltac:(lia)) as H.
  replace (Z.log2 (Zpos p) + 1 - 1) with (Z.log2 (Zpos p)) by lia.
  replace (Z.log2 (Zpos p) + 1) with (Z.succ (Z.log2 (Zpos p))) by lia.
  exact H.
Qed.

Lemma digits2_unique (p : positive) (d : Z) :
  2 ^ (d - 1) <= Zpos p < 2 ^ d -> 0 < d -> Zpos (digits2_pos p) = d.
Proof.
  intros H Hd. rewrite digits2_log2.
  rewrite (Z.log2_unique (Zpos p) (d - 1)); [lia | lia |].
  replace (Z.succ (d - 1)) with d by lia. exact H.
Qed.

Lemma iter_xO (j : positive) (p : positive) :
  Zpos (Pos.iter xO p j) = Zpos p * 2 ^ Zpos j.
Proof.
  revert p. induction j using Pos.peano_ind; intros p.
  - simpl. lia.
  - rewrite Pos.iter_succ, Pos2Z.inj_xO, IHj, Pos2Z.inj_succ, Z.pow_succ_r by lia.
    lia.
Qed.

Lemma strip_zeros_iter_xO (j : positive) (p : positive) (e : Z) :
  CNum.strip_zeros (Pos.iter xO p j) e = CNum.strip_zeros p (e + Zpos j).
Proof.
  revert e. induction j using Pos.peano_ind; intros e.
  - reflexivity.
  - rewrite Pos.iter_succ. cbn [CNum.strip_zeros]. rewrite IHj.
    f_equal. lia.
Qed.

(** [strip_zeros] keeps the value and the position of the leading bit and
    ends on an odd mantissa. *)
Lemma strip_zeros_spec (m : positive) :
  forall (e : Z) (m' : positive) (e' : Z),
  CNum.strip_zeros m e = (m', e') ->
  CNum.odd_mantissa m' = true
  /\ e <= e'
  /\ Zpos m = Zpos m' * 2 ^ (e' - e)
  /\ Zpos (digits2_pos m') + e' = Zpos (digits2_pos m) + e.
Proof.
  induction m as [m IH | m IH |]; intros e m' e' H; simpl in H.
  - injection H as <- <-. rewrite Z.sub_diag. simpl. repeat split; lia.
  - apply IH in H as (Ho & Hle & Hv & Hd). repeat split; try assumption.
    + lia.
    + rewrite Pos2Z.inj_xO, Hv.
      replace (e' - e) with (Z.succ (e' - (e + 1))) by lia.
      rewrite Z.pow_succ_r by lia. lia.
    + simpl digits2_pos. rewrite Pos2Z.inj_succ. lia.
  - injection H as <- <-. rewrite Z.sub_diag. simpl. repeat split; lia.
Qed.

Lemma shr_1_spec (m : Z) (r s : bool) :
  0 <= m ->
  shr_1 (Build_shr_record m r s)
  = Build_shr_record (m / 2) (Z.odd m) (r || s).
Proof.
  intros Hm. rewrite <- Z.div2_div.
  destruct m as [| p | p]; [reflexivity | | lia].
  destruct p; reflexivity.
Qed.

Lemma iter_pos_nat {A} (f : A -> A) (n : positive) :
  forall x, iter_pos f n x = Nat.iter (Pos.to_nat n) f x.
Proof.
  induction n as [n IH | n IH |]; intros x; simpl iter_pos.
  - rewrite !IH, Pos2Nat.inj_xI. 
    replace (S (2 * Pos.to_nat n)) with (Pos.to_nat n + S (Pos.to_nat n))%nat by lia.
    rewrite Nat.iter_add, Nat.iter_succ_r. reflexivity.
  - rewrite !IH, Pos2Nat.inj_xO.
    replace (2 * Pos.to_nat n)%nat with (Pos.to_nat n + Pos.to_nat n)%nat by lia.
    rewrite Nat.iter_add. reflexivity.
  - reflexivity.
Qed.

Lemma nz_mod_succ (m : Z) (n : Z) :
  0 <= m -> 0 <= n ->
  Z.odd (m / 2 ^ n) || negb (m mod 2 ^ n =? 0)
  = negb (m mod 2 ^ (n + 1) =? 0).
Proof.
  intros Hm Hn.
  assert (Hp : 0 < 2 ^ n) by (apply Z.pow_pos_nonneg; lia).
  rewrite Z.pow_add_r, Z.pow_1_r by lia.
  rewrite Z.rem_mul_r by lia.
  pose proof (Z.mod_pos_bound m (2 ^ n) Hp) as Hb.
  rewrite Zmod_odd.
  destruct (Z.odd (m / 2 ^ n)); simpl.
  - symmetry. apply negb_true_iff, Z.eqb_neq. lia.
  - rewrite Z.mul_0_r, Z.add_0_r. reflexivity.
Qed.

Lemma iter_shr_1 (n : nat) (m : Z) (r s : bool) :
  0 <= m ->
  Nat.iter (S n) shr_1 (Build_shr_record m r s)
  = Build_shr_record (m / 2 ^ (Z.of_nat n + 1))
                     (Z.odd (m / 2 ^ Z.of_nat n))
                     (r || s || negb (m mod 2 ^ Z.of_nat n =? 0)).
Proof.
  intros Hm. induction n as [| n IH].
  - change (Nat.iter 1 shr_1 ?x) with (shr_1 x). unfold Nat.iter, nat_rect. rewrite shr_1_spec by exact Hm. simpl Z.of_nat. simpl Z.add. rewrite Z.pow_0_r, Z.pow_1_r.
    rewrite Z.div_1_r, Z.mod_1_r, orb_false_r. reflexivity.
  - rewrite Nat.iter_succ, IH.
    assert (Hp : 0 < 2 ^ (Z.of_nat n + 1)) by (apply Z.pow_pos_nonneg; lia).
    rewrite shr_1_spec by (apply Z.div_pos; lia).
    rewrite Nat2Z.inj_succ. unfold Z.succ.
    f_equal.
    + rewrite Z.div_div by lia.
      rewrite (Z.pow_add_r 2 (Z.of_nat n + 1) 1) by lia. reflexivity.
    + rewrite <- (nz_mod_succ m (Z.of_nat n)) by lia.
      destruct r, s, (Z.odd (m / 2 ^ Z.of_nat n)),
        (negb (m mod 2 ^ Z.of_nat n =? 0)); reflexivity.
Qed.

Lemma fexp_shift (d e : Z) :
  - 125 <= d + e -> fexp 24 128 (d + e) - e = d - 24.
Proof. intros H. unfold fexp, emin. lia. Qed.

(** A mantissa of exactly 24 bits goes through the rounding unchanged. *)
Lemma binary_round_aux_exact (s : bool) (m : positive) (e : Z) :
  Zpos (digits2_pos m) = 24 -> - 149 <= e <= 104 ->
  binary_round_aux 24 128 s (Zpos m) e loc_Exact = S754_finite s m e.
Proof.
  intros Hd He.
  unfold binary_round_aux, shr_fexp.
  cbn [Zdigits2 shr_record_of_loc].
  rewrite fexp_shift, Hd by lia.
  change (24 - 24) with 0. cbn [shr].
  cbn [shr_m loc_of_shr_record round_nearest_even Zdigits2 shr_record_of_loc].
  rewrite fexp_shift, Hd by lia. change (24 - 24) with 0. cbn [shr shr_m].
  replace (e <=? 128 - 24) with true by (symmetry; apply Z.leb_le; lia).
  reflexivity.
Qed.

(** An integer of at most 24 bits is not rounded. *)
Lemma binary_round_small (s : bool) (p : positive) :
  Zpos (digits2_pos p) <= 24 ->
  CNum.fp_canon (binary_round 24 128 s p 0)
  = let '(m, e) := CNum.strip_zeros p 0 in S754_finite s m e.
Proof.
  intros Hd.
  assert (Hf : fexp 24 128 (Zpos (digits2_pos p)) = Zpos (digits2_pos p) - 24)
    by (unfold fexp, emin; lia).
  unfold binary_round, shl_align.
  rewrite Z.add_0_r, Z.sub_0_r, Hf.
  destruct (Zpos (digits2_pos p) - 24) as [| j | j] eqn:Hj; [| lia |].
  - rewrite binary_round_aux_exact by lia. reflexivity.
  - assert (Hdig : Zpos (digits2_pos (Pos.iter xO p j)) = 24).
    { apply digits2_unique; [| lia]. rewrite iter_xO.
      pose proof (digits2_bounds p) as Hb.
      assert (Hp : 0 < 2 ^ Zpos j) by (apply Z.pow_pos_nonneg; lia).
      assert (H1 : 2 ^ (24 - 1)
                   = 2 ^ (Zpos (digits2_pos p) - 1) * 2 ^ Zpos j)
        by (rewrite <- Z.pow_add_r by lia; f_equal; lia).
      assert (H2 : 2 ^ 24 = 2 ^ Zpos (digits2_pos p) * 2 ^ Zpos j)
        by (rewrite <- Z.pow_add_r by lia; f_equal; lia).
      rewrite H1, H2. nia. }
    rewrite binary_round_aux_exact by lia.
    unfold CNum.fp_canon. rewrite strip_zeros_iter_xO.
    replace (Z.neg j + Z.pos j) with 0 by lia. reflexivity.
Qed.

(** The second, renormalising shift of the rounding: a mantissa that
    the increment carried to 2^24 loses one bit, any other is kept. *)
Lemma shr_fexp_renormalise (q : positive) (e : Z) :
  2 ^ 23 <= Zpos q <= 2 ^ 24 -> 0 <= e <= 100 ->
  exists m e',
    shr_fexp 24 128 (Zpos q) e loc_Exact
    = (Build_shr_record (Zpos m) false false, e')
    /\ Zpos (digits2_pos m) = 24
    /\ e <= e' <= e + 1
    /\ Zpos m * 2 ^ (e' - e) = Zpos q.
Proof.
  intros Hq He.
  destruct (Z.eq_dec (Zpos q) (2 ^ 24)) as [Heq | Hne].
  - assert (Eq : q = 16777216%positive) by lia. subst q.
    exists 8388608%positive, (e + 1). split; [| split; [| split]].
    + unfold shr_fexp. cbn [Zdigits2].
      change (Zpos (digits2_pos 16777216)) with 25.
      rewrite fexp_shift by lia. reflexivity.
    + reflexivity.
    + lia.
    + replace (e + 1 - e) with 1 by lia. reflexivity.
  - assert (Hd : Zpos (digits2_pos q) = 24)
      by (apply digits2_unique; [change (24 - 1) with 23 |]; lia).
    exists q, e. split; [| split; [| split]].
    + unfold shr_fexp. cbn [Zdigits2]. rewrite fexp_shift, Hd by lia.
      reflexivity.
    + exact Hd.
    + lia.
    + rewrite Z.sub_diag. simpl. lia.
Qed.

(** Rounding to nearest, ties to even, of [a] cut at bit [j]: the round
    bit is bit [j - 1] of [a], the sticky bit tells whether a lower bit is
    set. *)
Lemma round_nearest_even_spec (a j : Z) :
  0 < a -> 0 < j ->
  let q := a / 2 ^ j in
  let q' := round_nearest_even q
              (loc_of_shr_record
                 (Build_shr_record q (Z.odd (a / 2 ^ (j - 1)))
                    (negb (a mod 2 ^ (j - 1) =? 0)))) in
  q <= q' <= q + 1
  /\ 2 * Z.abs (q' * 2 ^ j - a) <= 2 ^ j
  /\ (2 * Z.abs (q' * 2 ^ j - a) = 2 ^ j -> Z.even q' = true).
Proof.
  intros Ha Hj q q'.
  assert (Hh : 0 < 2 ^ (j - 1)) by (apply Z.pow_pos_nonneg; lia).
  assert (H2 : 2 ^ j = 2 ^ (j - 1) * 2).
  { replace j with ((j - 1) + 1) at 1 by lia.
    rewrite Z.pow_add_r by lia. reflexivity. }
  assert (Hq : q = a / 2 ^ (j - 1) / 2).
  { unfold q. rewrite H2, Z.div_div by lia. reflexivity. }
  pose proof (Z.div_mod a (2 ^ (j - 1)) ltac:(lia)) as Ea.
  pose proof (Z.mod_pos_bound a (2 ^ (j - 1)) Hh) as Ht.
  pose proof (Zdiv2_odd_eqn (a / 2 ^ (j - 1))) as Ec.
  rewrite Z.div2_div, <- Hq in Ec.
  subst q'. rewrite H2.
  set (h := 2 ^ (j - 1)) in *. set (c := a / h) in *.
  set (t := a mod h) in *. clearbody h c t q.
  clear Hq.
  destruct (Z.odd c); destruct (Z.eqb_spec t 0) as [Et | Et];
    cbn [loc_of_shr_record round_nearest_even negb] in *; subst a c.
  - destruct (Z.even q) eqn:Ev.
    + repeat split; try lia. intros _. exact Ev.
    + assert (Hev : Z.even (q + 1) = true).
      { rewrite Z.even_add, Ev. reflexivity. }
      repeat split; try lia. intros _. exact Hev.
  - repeat split; try lia.
  - repeat split; try lia.
  - repeat split; try lia.
Qed.

Lemma is_float_intro (s : bool) (m : positive) (e : Z) :
  CNum.odd_mantissa m = true -> Zpos (digits2_pos m) <= 24 ->
  - 149 <= e -> Zpos (digits2_pos m) + e <= 128 ->
  CNum.is_float (S754_finite s m e).
Proof.
  intros Ho Hd He Hde. unfold CNum.is_float, CNum.fp_in_format.
  rewrite Ho. change (emin 24 128) with (- 149).
  rewrite !andb_true_iff, !Z.leb_le. repeat split; lia.
Qed.

(** An integer of more than 24 bits is rounded to 24 bits, to nearest,
    ties to even. *)
Lemma binary_round_large (s : bool) (p : positive) (j : positive) :
  Zpos (digits2_pos p) = 24 + Zpos j -> Zpos j <= 99 ->
  exists m e,
    binary_round 24 128 s p 0 = S754_finite s m e
    /\ Zpos (digits2_pos m) = 24
    /\ Zpos j <= e <= Zpos j + 1
    /\ (Zpos m * 2 ^ e) mod 2 ^ Zpos j = 0
    /\ 2 * Z.abs (Zpos m * 2 ^ e - Zpos p) <= 2 ^ Zpos j
    /\ (2 * Z.abs (Zpos m * 2 ^ e - Zpos p) = 2 ^ Zpos j ->
        Z.even (Zpos m * 2 ^ e / 2 ^ Zpos j) = true).
Proof.
  intros Hd Hj.
  assert (Hf : fexp 24 128 (Zpos (digits2_pos p)) = Zpos j)
    by (unfold fexp, emin; lia).
  assert (H1 : shr_fexp 24 128 (Zpos p) 0 loc_Exact
               = (Build_shr_record (Zpos p / 2 ^ Zpos j)
                    (Z.odd (Zpos p / 2 ^ (Zpos j - 1)))
                    (negb (Zpos p mod 2 ^ (Zpos j - 1) =? 0)), Zpos j)).
  { unfold shr_fexp. cbn [Zdigits2 shr_record_of_loc].
    rewrite Z.add_0_r, Z.sub_0_r, Hf. cbn [shr].
    rewrite iter_pos_nat.
    destruct (Pos2Nat.is_succ j) as [n Hn]. rewrite Hn.
    rewrite iter_shr_1 by lia.
    assert (Ej : Z.of_nat n = Zpos j - 1) by lia.
    rewrite Ej. replace (Zpos j - 1 + 1) with (Zpos j) by lia.
    reflexivity. }
  unfold binary_round, shl_align.
  rewrite Z.add_0_r, Z.sub_0_r, Hf.
  unfold binary_round_aux. rewrite H1. cbn [shr_m].
  pose proof (round_nearest_even_spec (Zpos p) (Zpos j) ltac:(lia) ltac:(lia))
    as Hr. cbv zeta in Hr.
  set (q' := round_nearest_even _ _) in *.
  destruct Hr as (Hq' & Hnear & Htie).
  pose proof (digits2_bounds p) as Hb. rewrite Hd in Hb.
  assert (Hpj : 0 < 2 ^ Zpos j) by (apply Z.pow_pos_nonneg; lia).
  assert (H23 : 2 ^ (24 + Zpos j - 1) = 2 ^ 23 * 2 ^ Zpos j)
    by (rewrite <- Z.pow_add_r by lia; f_equal; lia).
  assert (H24 : 2 ^ (24 + Zpos j) = 2 ^ 24 * 2 ^ Zpos j)
    by (rewrite <- Z.pow_add_r by lia; f_equal; lia).
  rewrite H23, H24 in Hb.
  assert (Hq : 2 ^ 23 <= Zpos p / 2 ^ Zpos j < 2 ^ 24).
  { split.
    - apply Z.div_le_lower_bound; lia.
    - apply Z.div_lt_upper_bound; lia. }
  destruct q' as [| q | q] eqn:Eq'; [lia | | lia].
  destruct (shr_fexp_renormalise q (Zpos j) ltac:(lia) ltac:(lia))
    as (m & e' & Hs & Hdm & He' & Hv).
  rewrite Hs. cbn [shr_m].
  replace (e' <=? 128 - 24) with true by (symmetry; apply Z.leb_le; lia).
  exists m, e'.
  assert (Hval : Zpos m * 2 ^ e' = Zpos q * 2 ^ Zpos j).
  { rewrite <- Hv. replace e' with ((e' - Zpos j) + Zpos j) at 1 by lia.
    rewrite Z.pow_add_r by lia. lia. }
  rewrite Hval.
  split; [reflexivity |]. split; [exact Hdm |]. split; [exact He' |].
  split; [apply Z.mod_mul; lia |]. split; [exact Hnear |].
  rewrite Z.div_mul by lia. exact Htie.
Qed.

Lemma nearest_on_grid_exact (a : Z) :
  0 < a -> Z.log2 a + 1 <= 24 -> nearest_on_grid a a.
Proof.
  intros Ha Hl. unfold nearest_on_grid.
  rewrite Z.max_l by lia. rewrite Z.pow_0_r, Z.mod_1_r, Z.sub_diag.
  simpl. repeat split; lia.
Qed.

(** The conversion of a nonzero integer of at most 32 bits. *)
Lemma float_of_pos_spec (s : bool) (p : positive) :
  Zpos p <= 2 ^ 31 ->
  exists m e,
    CNum.fp_canon (binary_round 24 128 s p 0) = S754_finite s m e
    /\ CNum.is_float (S754_finite s m e)
    /\ 0 <= e
    /\ nearest_on_grid (Zpos p) (Zpos m * 2 ^ e).
Proof.
  intros Hp.
  pose proof (digits2_log2 p) as Hlog.
  pose proof (digits2_bounds p) as Hb.
  assert (Hd32 : Zpos (digits2_pos p) <= 32).
  { destruct (Z.le_gt_cases (Zpos (digits2_pos p)) 32) as [H | H]; [exact H |].
    exfalso.
    assert (2 ^ 32 <= 2 ^ (Zpos (digits2_pos p) - 1))
      by (apply Z.pow_le_mono_r; lia).
    lia. }
  destruct (Z.le_gt_cases (Zpos (digits2_pos p)) 24) as [Hd | Hd].
  - rewrite binary_round_small by exact Hd.
    destruct (CNum.strip_zeros p 0) as [m e] eqn:Es.
    apply strip_zeros_spec in Es as (Ho & He & Hv & Hdm).
    rewrite Z.sub_0_r in Hv.
    exists m, e. split; [reflexivity |]. split; [| split].
    + apply is_float_intro; [exact Ho | lia | lia | lia].
    + exact He.
    + rewrite <- Hv. apply nearest_on_grid_exact; lia.
  - destruct (Zpos (digits2_pos p) - 24) as [| j | j] eqn:Hj; [lia | | lia].
    destruct (binary_round_large s p j ltac:(lia) ltac:(lia))
      as (m & e & Hr & Hdm & He & Hmod & Hnear & Htie).
    rewrite Hr. unfold CNum.fp_canon.
    destruct (CNum.strip_zeros m e) as [m' e'] eqn:Es.
    apply strip_zeros_spec in Es as (Ho & Hle & Hv & Hdm').
    assert (Hval : Zpos m' * 2 ^ e' = Zpos m * 2 ^ e).
    { rewrite Hv. replace e' with ((e' - e) + e) at 1 by lia.
      rewrite Z.pow_add_r by lia. lia. }
    exists m', e'. split; [reflexivity |]. split; [| split].
    + apply is_float_intro; [exact Ho | lia | lia | lia].
    + lia.
    + unfold nearest_on_grid. rewrite Hval.
      replace (Z.max 0 (Z.log2 (Zpos p) + 1 - 24)) with (Zpos j) by lia.
      repeat split; assumption.
Qed.

Lemma float_of_int_spec (n : Z) :
  CNum.is_int n ->
  CNum.is_float (CNum.float_of_int n)
  /\ float_of_integer n (CNum.float_of_int n).
Proof.
  intros Hn. unfold CNum.is_int, CNum.in_range in Hn.
  change (2 ^ (32 - 1)) with (2 ^ 31) in Hn.
  unfold CNum.float_of_int, binary_normalize.
  destruct n as [| p | p].
  - split; [reflexivity | split; reflexivity].
  - destruct (float_of_pos_spec false p ltac:(lia)) as (m & e & -> & Hf & He & Hg).
    split; [exact Hf |].
    split; [reflexivity | split; [exact He | exact Hg]].
  - destruct (float_of_pos_spec true p ltac:(lia)) as (m & e & -> & Hf & He & Hg).
    split; [exact Hf |].
    split; [reflexivity | split; [exact He | exact Hg]].
Qed.

Lemma nearest_on_grid_unique (a v1 v2 : Z) :
  nearest_on_grid a v1 -> nearest_on_grid a v2 -> v1 = v2.
Proof.
  unfold nearest_on_grid.
  set (k := Z.max 0 (Z.log2 a + 1 - 24)).
  assert (HP : 0 < 2 ^ k) by (apply Z.pow_pos_nonneg; lia).
  set (P := 2 ^ k) in *. clearbody P. clear k.
  intros (M1 & N1 & T1) (M2 & N2 & T2).
  apply Zdiv.Zmod_divides in M1 as [c1 ->]; [| lia].
  apply Zdiv.Zmod_divides in M2 as [c2 ->]; [| lia].
  rewrite (Z.mul_comm P c1), Z.div_mul in T1 by lia.
  rewrite (Z.mul_comm P c2), Z.div_mul in T2 by lia.
  assert (Hc : c1 = c2 \/ c1 = c2 + 1 \/ c2 = c1 + 1) by nia.
  destruct Hc as [-> | [-> | ->]]; [reflexivity | exfalso | exfalso].
  - assert (E1 : Z.even (c2 + 1) = true) by (apply T1; nia).
    assert (E2 : Z.even c2 = true) by (apply T2; nia).
    rewrite Z.even_add, E2 in E1. discriminate.
  - assert (E1 : Z.even c1 = true) by (apply T1; nia).
    assert (E2 : Z.even (c1 + 1) = true) by (apply T2; nia).
    rewrite Z.even_add, E1 in E2. discriminate.
Qed.

Lemma odd_mantissa_odd (m : positive) :
  CNum.odd_mantissa m = true -> Z.odd (Zpos m) = true.
Proof. destruct m; simpl; congruence. Qed.

Lemma odd_mantissa_unique (m1 m2 : positive) (e1 e2 : Z) :
  CNum.odd_mantissa m1 = true -> CNum.odd_mantissa m2 = true ->
  0 <= e1 -> 0 <= e2 ->
  Zpos m1 * 2 ^ e1 = Zpos m2 * 2 ^ e2 ->
  m1 = m2 /\ e1 = e2.
Proof.
  intros O1 O2 H1 H2 Hv.
  apply odd_mantissa_odd in O1, O2.
  assert (Hshift : forall a b d, Z.odd a = true -> 0 < d ->
                     a = b * 2 ^ d -> False).
  { intros a b d Ha Hd E. subst a.
    replace d with (Z.succ (d - 1)) in Ha by lia.
    rewrite Z.pow_succ_r in Ha by lia.
    replace (b * (2 * 2 ^ (d - 1))) with (2 * (b * 2 ^ (d - 1))) in Ha by lia.
    rewrite Z.odd_mul in Ha. discriminate. }
  assert (Hp1 : 0 < 2 ^ e1) by (apply Z.pow_pos_nonneg; lia).
  assert (Hp2 : 0 < 2 ^ e2) by (apply Z.pow_pos_nonneg; lia).
  destruct (Z.lt_total e1 e2) as [Hlt | [-> | Hlt]].
  - exfalso. apply (Hshift (Zpos m1) (Zpos m2) (e2 - e1) O1 ltac:(lia)).
    replace e2 with ((e2 - e1) + e1) in Hv by lia.
    rewrite Z.pow_add_r in Hv by lia. nia.
  - split; [| reflexivity]. nia.
  - exfalso. apply (Hshift (Zpos m2) (Zpos m1) (e1 - e2) O2 ltac:(lia)).
    replace e1 with ((e1 - e2) + e2) in Hv by lia.
    rewrite Z.pow_add_r in Hv by lia. nia.
Qed.

(** The two properties determine the result of the conversion. *)
Lemma float_of_integer_unique (n : Z) (x y : CNum.fp) :
  CNum.is_float x -> float_of_integer n x ->
  CNum.is_float y -> float_of_integer n y ->
  x = y.
Proof.
  intros Fx Hx Fy Hy.
  assert (Hnz : forall s m e,
            float_of_integer n (S754_finite s m e) -> n <> 0).
  { intros s m e (_ & He & Hg) ->. unfold nearest_on_grid in Hg.
    change (Z.abs 0) with 0 in Hg.
    change (Z.max 0 (Z.log2 0 + 1 - 24)) with 0 in Hg.
    destruct Hg as (_ & Hn & _). rewrite Z.pow_0_r in Hn.
    assert (0 < 2 ^ e) by (apply Z.pow_pos_nonneg; lia). nia. }
  destruct x as [sx | sx | | sx mx ex]; try contradiction;
    destruct y as [sy | sy | | sy my ey]; try contradiction.
  - destruct Hx as (_ & ->), Hy as (_ & ->). reflexivity.
  - destruct Hx as (E & _). apply Hnz in Hy. contradiction.
  - destruct Hy as (E & _). apply Hnz in Hx. contradiction.
  - destruct Hx as (-> & Hex & Hgx), Hy as (-> & Hey & Hgy).
    pose proof (nearest_on_grid_unique _ _ _ Hgx Hgy) as Hv.
    unfold CNum.is_float, CNum.fp_in_format in Fx, Fy.
    rewrite !andb_true_iff in Fx, Fy.
    destruct Fx as (((Ox & _) & _) & _), Fy as (((Oy & _) & _) & _).
    destruct (odd_mantissa_unique _ _ _ _ Ox Oy Hex Hey Hv) as (-> & ->).
    reflexivity.
Qed.

Lemma shiftl_pos_spec (m : positive) (e : Z) (a : Z) :
  Z.shiftl (Zpos m) e = a <->
  0 <= a
  /\ a * 2 ^ Z.max 0 (- e) <= Zpos m * 2 ^ Z.max 0 e
     < (a + 1) * 2 ^ Z.max 0 (- e).
Proof.
  destruct (Z.le_gt_cases 0 e) as [He | He].
  - rewrite Z.shiftl_mul_pow2 by lia.
    rewrite (Z.max_l 0 (- e)), (Z.max_r 0 e) by lia. rewrite Z.pow_0_r.
    assert (0 < 2 ^ e) by (apply Z.pow_pos_nonneg; lia).
    split; [intros <-; nia | intros ?; nia].
  - rewrite Z.shiftl_div_pow2 by lia.
    rewrite (Z.max_r 0 (- e)), (Z.max_l 0 e) by lia. rewrite Z.pow_0_r.
    assert (Hp : 0 < 2 ^ (- e)) by (apply Z.pow_pos_nonneg; lia).
    pose proof (Z.div_mod (Zpos m) (2 ^ (- e)) ltac:(lia)) as E.
    pose proof (Z.mod_pos_bound (Zpos m) (2 ^ (- e)) Hp) as B.
    split.
    + intros <-. nia.
    + intros (Ha & Hlo & Hhi). symmetry.
      apply (Z.div_unique (Zpos m) (2 ^ (- e)) a (Zpos m - 2 ^ (- e) * a));
        lia.
Qed.

(** [static_cast<int>(f)] has a result exactly for the floats whose
    integer part is an [int], and the result is that integer part. *)
Lemma int_of_float_spec (x : CNum.fp) (z : Z) :
  CNum.int_of_float x = Some z <-> truncation_of x z /\ CNum.is_int z.
Proof.
  assert (Hr : forall a, CNum.in_rangeb 32 a = true <-> CNum.is_int a).
  { intros a. unfold CNum.in_rangeb, CNum.is_int, CNum.in_range.
    rewrite andb_true_iff, Z.leb_le, Z.ltb_lt. reflexivity. }
  unfold CNum.int_of_float.
  destruct x as [s | s | | s m e]; cbn [CNum.fp_trunc truncation_of].
  - split.
    + intros H. destruct (CNum.in_rangeb 32 0) eqn:E; [| discriminate].
      injection H as <-. split; [reflexivity | apply Hr, E].
    + intros (-> & H). apply Hr in H. rewrite H. reflexivity.
  - split; [discriminate | intros ([] & _)].
  - split; [discriminate | intros ([] & _)].
  - set (a := Z.shiftl (Zpos m) e).
    pose proof (proj1 (shiftl_pos_spec m e a) eq_refl) as (Ha & Hb).
    split.
    + intros H.
      destruct (CNum.in_rangeb 32 (if s then - a else a)) eqn:E;
        [| discriminate].
      injection H as <-. apply Hr in E. split; [| exact E].
      destruct s.
      * split; [lia |]. rewrite Z.abs_opp, Z.abs_eq by lia. exact Hb.
      * split; [lia |]. rewrite Z.abs_eq by lia. exact Hb.
    + intros ((Hs & Hz) & Hi).
      assert (Ea : a = Z.abs z).
      { apply shiftl_pos_spec. split; [lia | exact Hz]. }
      assert (Ez : (if s then - a else a) = z) by (destruct s; lia).
      rewrite Ez. apply Hr in Hi. rewrite Hi. reflexivity.
Qed.

Lemma nearest_on_grid_small (a v : Z) :
  0 < a <= 2 ^ 24 -> nearest_on_grid a v -> v = a.
Proof.
  intros Ha (Hm & Hn & _).
  destruct (Z.eq_dec a (2 ^ 24)) as [-> | Hne].
  - change (Z.max 0 (Z.log2 (2 ^ 24) + 1 - 24)) with 1 in Hm, Hn.
    change (2 ^ 1) with 2 in Hm, Hn.
    pose proof (Z.div_mod v 2 ltac:(lia)) as E. rewrite Hm in E.
    change (2 ^ 24) with 16777216 in *. lia.
  - assert (Hl : Z.log2 a < 24) by (apply Z.log2_lt_pow2; lia).
    pose proof (Z.log2_nonneg a) as Hl0.
    rewrite Z.max_l in Hn by lia. rewrite Z.pow_0_r in Hn. lia.
Qed.

(** An integer of magnitude up to 2^24 is converted exactly. *)
Lemma float_of_integer_exact (n : Z) (x : CNum.fp) :
  Z.abs n <= 2 ^ 24 -> float_of_integer n x -> integral_value x n.
Proof.
  intros Hn Hx. destruct x as [s | s | | s m e]; try contradiction.
  - destruct Hx as [E _]. exact E.
  - destruct Hx as (-> & He & Hg). split; [exact He |].
    assert (Hnz : Z.abs n <> 0).
    { intros E0. rewrite E0 in Hg. unfold nearest_on_grid in Hg.
      change (Z.max 0 (Z.log2 0 + 1 - 24)) with 0 in Hg.
      destruct Hg as (_ & Hg & _). rewrite Z.pow_0_r in Hg.
      assert (0 < 2 ^ e) by (apply Z.pow_pos_nonneg; lia). nia. }
    apply nearest_on_grid_small in Hg; [| lia].
    destruct (Z.ltb_spec n 0); lia.
Qed.

Lemma check_all_true_iff (Ts : list CType) :
  forall (st : list TValue) (i : Z),
  check_all Ts st i = true <->
  forall k T, nth_error Ts k = Some T -> check_ok T st (i + Z.of_nat k) = true.
Proof.
  induction Ts as [| U Ts IH]; intros st i; simpl.
  - split; [| reflexivity]. intros _ k T Hk. destruct k; discriminate.
  - rewrite andb_true_iff, IH. split.
    + intros [H0 Hr] k T Hk. destruct k as [| k]; simpl in Hk.
      * injection Hk as <-. now rewrite Z.add_0_r.
      * replace (i + Z.of_nat (S k)) with (i + 1 + Z.of_nat k) by lia.
        now apply Hr.
    + intros H. split.
      * specialize (H 0%nat U eq_refl). now rewrite Z.add_0_r in H.
      * intros k T Hk.
        replace (i + 1 + Z.of_nat k) with (i + Z.of_nat (S k)) by lia.
        now apply H.
Qed.

Lemma answer_CheckArgs (Arg : CType) (Rest : list CType) (i : Z) (w : World) :
  answer (CheckArgs Arg Rest i) w = Some (check_all (Arg :: Rest) (stack w) i).
Proof.
  destruct (CheckArgs_run Rest Arg i w) as (l & E & _).
  unfold answer. now rewrite E.
Qed.

(** A check that passes found a boolean, a number, a text or a
    userdata in the slot. *)
Lemma check_ok_supported (T : CType) (st : list TValue) (i : Z) :
  check_ok T st i = true -> supported_tag (index2addr st i) = true.
Proof.
  destruct T; unfold check_ok, slot, type_at, heavy_or_light;
    destruct (index2addr st i) as [[]|]; simpl; try discriminate;
    try reflexivity.
Qed.

Lemma pop_all_cons (T : CType) (Ts : list CType) (st : list TValue) (i : Z) :
  pop_all (T :: Ts) st i =
  match extract_slot T (index2addr st i) with
  | Some a => option_map (cons a) (pop_all Ts st (i + 1))
  | None => None
  end.
Proof. reflexivity. Qed.

(** [PopArgs] answers [pop_all] and leaves the stack alone. *)
Lemma PopArgs_run (Rest : list CType) :
  forall (Arg : CType) (i : Z) (w : World),
  match pop_all (Arg :: Rest) (stack w) i with
  | Some args => exists w', PopArgs Arg Rest i w = Some (args, w')
                            /\ stack w' = stack w
  | None => PopArgs Arg Rest i w = None
  end.
Proof.
  induction Rest as [| Arg' Rest' IH]; intros Arg i w;
    rewrite PopArgs_unfold; unfold bind;
    rewrite pop_all_cons; unfold extract_slot;
    pose proof (LuaValue_ctor_run i w) as R;
    destruct (decoded (index2addr (stack w) i)) as [val |];
    try (rewrite R; reflexivity);
    destruct R as (l & E & _); rewrite E;
    destruct (extract Arg val) as [a |];
    unfold lift; try reflexivity.
  - cbv [option_map]. eexists. split; reflexivity.
  - match goal with
    | |- context [PopArgs Arg' Rest' (i + 1) ?w1] =>
        specialize (IH Arg' (i + 1) w1); cbn [stack] in IH
    end.
    destruct (pop_all (Arg' :: Rest') (stack w) (i + 1)) as [rest |].
    + destruct IH as (w' & E' & S'). rewrite E'. cbv [option_map].
      eexists. split; [reflexivity | exact S'].
    + rewrite IH. reflexivity.
Qed.

Lemma answer_PopArgs (Arg : CType) (Rest : list CType) (i : Z) (w : World) :
  answer (PopArgs Arg Rest i) w = pop_all (Arg :: Rest) (stack w) i.
Proof.
  pose proof (PopArgs_run Rest Arg i w) as H. unfold answer.
  destruct (pop_all (Arg :: Rest) (stack w) i) as [args |].
  - destruct H as (w' & E & _). now rewrite E.
  - now rewrite H.
Qed.

Lemma pop_all_spec (Ts : list CType) :
  forall (st : list TValue) (i : Z) (args : list NativeVal),
  pop_all Ts st i = Some args <->
  List.length args = List.length Ts
  /\ forall k T, nth_error Ts k = Some T ->
       exists a, extract_slot T (index2addr st (i + Z.of_nat k)) = Some a
                 /\ nth_error args k = Some a.
Proof.
  induction Ts as [| U Ts IH]; intros st i args; cbn [pop_all].
  - split.
    + intros [= <-]. split; [reflexivity |]. intros k T Hk.
      destruct k; discriminate.
    + intros [Hlen _]. destruct args; [reflexivity | discriminate].
  - split.
    + destruct (extract_slot U (index2addr st i)) as [a |] eqn:Ea;
        [| discriminate].
      destruct (pop_all Ts st (i + 1)) as [rest |] eqn:Er; [| discriminate].
      intros [= <-]. apply IH in Er as [Hlen Hnth]. split.
      * simpl. now rewrite Hlen.
      * intros k T Hk. destruct k as [| k]; cbn [nth_error] in *.
        -- injection Hk as <-. rewrite Z.add_0_r. exists a. now split.
        -- replace (i + Z.of_nat (S k)) with (i + 1 + Z.of_nat k) by lia.
           now apply Hnth.
    + intros [Hlen Hnth]. destruct args as [| a rest]; [discriminate |].
      destruct (Hnth 0%nat U eq_refl) as (a0 & Ea & [= <-]).
      rewrite Z.add_0_r in Ea. rewrite Ea.
      assert (Er : pop_all Ts st (i + 1) = Some rest).
      { apply IH. split; [simpl in Hlen; lia |]. intros k T Hk.
        specialize (Hnth (S k) T Hk).
        replace (i + Z.of_nat (S k)) with (i + 1 + Z.of_nat k) in Hnth by lia.
        exact Hnth. }
      now rewrite Er.
Qed.

Lemma logged_inj (w : World) (l l' : list (ApiFn * Z)) :
  logged w l = logged w l' -> l = l'.
Proof.
  intros H. apply (f_equal api) in H. simpl in H.
  now apply app_inv_head in H.
Qed.

Lemma only_queries_app (l1 l2 : list (ApiFn * Z)) :
  only_queries l1 -> only_queries l2 -> only_queries (l1 ++ l2).
Proof. unfold only_queries. intros H1 H2. apply Forall_app. now split. Qed.

(** The checks go through the type queries of the runtime only. *)
Lemma CheckSingleArg_queries (T : CType) (i : Z) (w : World) :
  exists b l, CheckSingleArg T i w = Some (b, logged w l) /\ only_queries l.
Proof.
  assert (Hgen : exists b l,
    (a <- lua_isuserdata i ;; if a then ret true else lua_islightuserdata i) w
      = Some (b, logged w l) /\ only_queries l).
  { unfold bind, lua_isuserdata. rewrite query_run. cbv beta iota.
    destruct (match slot (stack w) i with
              | LUserdata _ | LLightUserdata _ => true
              | _ => false
              end).
    - exists true, [(api_isuserdata, i)]. split; [reflexivity |].
      repeat constructor.
    - unfold lua_islightuserdata, lua_type, bind. rewrite query_run.
      rewrite logged_logged. eexists _, _. split; [reflexivity |].
      repeat constructor. }
  destruct T; try exact Hgen;
    (eexists _, [_]; split; [reflexivity | repeat constructor]).
Qed.

Lemma CheckArgs_queries (Rest : list CType) :
  forall (Arg : CType) (i : Z) (w : World),
  exists b l, CheckArgs Arg Rest i w = Some (b, logged w l) /\ only_queries l.
Proof.
  induction Rest as [| Arg' Rest' IH]; intros Arg i w;
    destruct (CheckSingleArg_queries Arg i w) as (b & l & E & Hl).
  - exists b, l. split; [| exact Hl].
    simpl. unfold bind. rewrite E. destruct b; reflexivity.
  - change (CheckArgs Arg (Arg' :: Rest') i w)
      with ((ok <- CheckSingleArg Arg i ;;
             if negb ok then ret false else CheckArgs Arg' Rest' (i + 1)) w).
    unfold bind. rewrite E. destruct b; cbv beta iota delta [negb].
    + destruct (IH Arg' (i + 1) (logged w l)) as (b' & l' & E' & Hl').
      exists b', (l ++ l'). split.
      * rewrite E', logged_logged. reflexivity.
      * now apply only_queries_app.
    + exists false, l. split; [reflexivity | exact Hl].
Qed.

(** The trampoline once the arity test has passed, for a function with
    parameters: the checks are made, by type queries only, and their
    conjunction decides between the type failure and the marshalling. *)
Lemma StaticBinding_after_check (B : Binder) (w : World) (Arg : CType)
      (Rest : list CType) :
  List.length (stack w) = List.length (Args B) ->
  Args B = Arg :: Rest ->
  exists l,
    only_queries l
    /\ StaticBinding B w
       = if check_all (Arg :: Rest) (stack w) 1
         then (args <- PopArgs Arg Rest 1 ;;
               invoke (Return B) (Func B) args)
                (logged w ((api_gettop, 0) :: l))
         else Some (0, mkWorld (stack w) (cout w ++ [msg_type]) (invoked w)
                               (api w ++ (api_gettop, 0) :: l)).
Proof.
  intros Hlen HArgs.
  rewrite (StaticBinding_checked B w Arg Rest Hlen HArgs).
  set (w1 := logged w [(api_gettop, 0)]).
  destruct (CheckArgs_run Rest Arg 1 w1) as (l & E & _).
  destruct (CheckArgs_queries Rest Arg 1 w1) as (b & l' & E' & Hl').
  assert (l' = l) as ->.
  { symmetry. apply (logged_inj w1). congruence. }
  exists l. split; [exact Hl' |].
  unfold bind at 1. rewrite E. change (stack w1) with (stack w).
  assert (Hw : logged w1 l = logged w ((api_gettop, 0) :: l))
    by (unfold w1; now rewrite logged_logged).
  destruct (check_all (Arg :: Rest) (stack w) 1); cbv beta iota delta [negb].
  - now rewrite Hw.
  - rewrite Hw. unfold bind, print, ret, logged. reflexivity.
Qed.

(** On slots that passed their checks the decoder writes no diagnostic. *)
Lemma PopArgs_cout (Rest : list CType) :
  forall (Arg : CType) (i : Z) (w : World) (args : list NativeVal) (w' : World),
  check_all (Arg :: Rest) (stack w) i = true ->
  PopArgs Arg Rest i w = Some (args, w') ->
  cout w' = cout w.
Proof.
  induction Rest as [| Arg' Rest' IH]; intros Arg i w args w' Hall;
    rewrite PopArgs_unfold; unfold bind;
    destruct (LuaValue_ctor i w) as [[val w1] |] eqn:E; try discriminate;
    apply LuaValue_ctor_inv in E as (_ & l & -> & _);
    simpl in Hall; apply andb_true_iff in Hall as [H0 Hr];
    rewrite (check_ok_supported _ _ _ H0), app_nil_r;
    unfold lift;
    destruct (extract Arg val) as [a |];
    try discriminate.
  - intros [= _ <-]. reflexivity.
  - match goal with
    | |- context [PopArgs Arg' Rest' (i + 1) ?w1] =>
        destruct (PopArgs Arg' Rest' (i + 1) w1) as [[rest w2] |] eqn:E2;
          [| discriminate];
        apply IH in E2; [| exact Hr]
    end.
    intros [= _ <-]. exact E2.
Qed.

Lemma snoc_neq {A} (l : list A) (a : A) : l ++ [a] <> l.
Proof.
  intros H. apply (f_equal (@List.length A)) in H.
  rewrite length_app in H. simpl in H. lia.
Qed.

Lemma to_int_is_int (z : Z) : CNum.is_int (CNum.to_int z).
Proof.
  unfold CNum.is_int, CNum.in_range, CNum.to_int, CNum.wrap.
  change (2 ^ (32 - 1)) with 2147483648. change (2 ^ 32) with 4294967296.
  pose proof (Z.mod_pos_bound (z + 2147483648) 4294967296 ltac:(lia)). lia.
Qed.

Lemma c_str_has_no_NUL (s : string) : CStr.has_NUL (CStr.c_str s) = false.
Proof.
  induction s as [| c r IH]; simpl; [reflexivity |].
  destruct (Ascii.eqb c CStr.NUL) eqn:E; simpl; [reflexivity |].
  now rewrite E, IH.
Qed.

Lemma strict_check_ok_matches (T : CType) (st : list TValue) (i : Z)
      (v : TValue) :
  strict_param T = true -> index2addr st i = Some v ->
  check_ok T st i = true -> matches T v.
Proof.
  intros HT Hi H. unfold matches.
  destruct T; try discriminate;
    unfold check_ok, slot, type_at, heavy_or_light in H; rewrite Hi in H;
    destruct v; try discriminate H; reflexivity.
Qed.

Lemma strict_check_all_matches (Ts : list CType) :
  forall (k : nat) (st : list TValue),
  Forall (fun T => strict_param T = true) Ts ->
  List.length (skipn k st) = List.length Ts ->
  check_all Ts st (position k) = true ->
  Forall2 matches Ts (skipn k st).
Proof.
  induction Ts as [| T Ts IH]; intros k st Hs Hlen Hall.
  - destruct (skipn k st); [constructor | discriminate].
  - destruct (skipn k st) as [| v r] eqn:Ek; [discriminate |].
    apply skipn_cons_inv in Ek as [Hk Hr].
    inversion Hs as [| T' Ts' HT Hs']; subst.
    simpl in Hall. apply andb_true_iff in Hall as [H0 Hrest].
    rewrite position_succ in Hrest. constructor.
    + apply (strict_check_ok_matches T st (position k) v HT); [| exact H0].
      now rewrite index2addr_position.
    + apply IH; [exact Hs' | apply eq_add_S; exact Hlen | exact Hrest].
Qed.

(** The trampoline of a non-void function on matching arguments, none of
    them a text, in full. *)
Lemma StaticBinding_value_matching (Ts : list CType)
      (f : list NativeVal -> NativeVal) (w : World) :
  Forall2 matches Ts (stack w) ->
  text_free Ts ->
  exists args l,
    StaticBinding (mkBinder RValue Ts f) w
    = Some (1, mkWorld (stack w ++ [encoded (f args)]) (cout w)
                       (invoked w ++ [args]) (api w ++ l))
    /\ map Some args
       = map (fun p => native_of (fst p) (snd p)) (combine Ts (stack w)).
Proof.
  intros HF Htf.
  assert (Hlen : List.length (stack w) = List.length Ts)
    by (symmetry; eapply Forall2_length; eassumption).
  destruct Ts as [| Arg Rest].
  - assert (Hst : stack w = [])
      by (destruct (stack w); [reflexivity | discriminate]).
    rewrite (StaticBinding_nullary (mkBinder RValue [] f) w Hst eq_refl).
    cbn [Return Func].
    rewrite invoke_value. exists [], [(api_gettop, 0); (push_api (f []), 0)].
    split; [| now rewrite Hst].
    unfold logged. simpl. rewrite <- app_assoc. reflexivity.
  - rewrite (StaticBinding_checked (mkBinder RValue (Arg :: Rest) f) w Arg Rest
               Hlen eq_refl).
    cbn [Return Func].
    set (w1 := logged w [(api_gettop, 0)]).
    destruct (CheckArgs_run Rest Arg 1 w1) as (l & E & _).
    pose proof (check_all_matching (Arg :: Rest) 0 (stack w1) (stack w)
                  eq_refl HF) as Hall.
    change (position 0) with 1 in Hall. rewrite Hall in E.
    unfold bind at 1. rewrite E. cbv beta iota delta [negb].
    destruct (PopArgs_matching Rest Arg 0 (logged w1 l) (stack w) eq_refl HF
                Htf)
      as (args & l' & E' & _ & Hmap).
    change (position 0) with 1 in E'. unfold bind. rewrite E'.
    rewrite invoke_value.
    exists args, ((api_gettop, 0) :: l ++ l' ++ [(push_api (f args), 0)]).
    split; [| exact Hmap].
    unfold w1, logged. simpl. rewrite <- !app_assoc. reflexivity.
Qed.

Lemma int_of_float_is_int (x : CNum.fp) (z : Z) :
  CNum.int_of_float x = Some z -> CNum.is_int z.
Proof.
  unfold CNum.int_of_float.
  destruct (CNum.fp_trunc x) as [t |]; [| discriminate].
  destruct (CNum.in_rangeb 32 t) eqn:Hr; [| discriminate].
  intros [= <-]. unfold CNum.in_rangeb in Hr.
  apply andb_true_iff in Hr as [H1 H2].
  apply Z.leb_le in H1. apply Z.ltb_lt in H2. split; assumption.
Qed.

Lemma extract_kind (T : CType) (o : option TValue) (a : NativeVal) :
  extract_slot T o = Some a -> has_kind T a.
Proof.
  unfold extract_slot, extract.
  destruct T; cbn [is_pointer GetValue];
    unfold GetValue_int, GetValue_float, GetValue_bool, GetValue_string,
           GetValue_voidp;
    destruct o as [[]|];
    cbn [decoded type value value_i value_f value_b value_s value_u option_map];
    intros H; try discriminate H;
    try (injection H as <-; cbn [has_kind];
         auto using to_int_is_int).
  destruct (CNum.int_of_float (CNum.float_of_double n)) as [z |] eqn:Ez;
    [| discriminate H].
  injection H as <-. cbn [has_kind]. eapply int_of_float_is_int; eassumption.
Qed.

Lemma pop_all_kinds (Ts : list CType) :
  forall (st : list TValue) (i : Z) (args : list NativeVal),
  pop_all Ts st i = Some args -> Forall2 has_kind Ts args.
Proof.
  induction Ts as [| T Ts IH]; intros st i args.
  - intros [= <-]. constructor.
  - rewrite pop_all_cons.
    destruct (extract_slot T (index2addr st i)) as [a |] eqn:Ea;
      [| discriminate].
    destruct (pop_all Ts st (i + 1)) as [rest |] eqn:Er; [| discriminate].
    intros [= <-]. constructor.
    + eapply extract_kind; eassumption.
    + eapply IH; eassumption.
Qed.

Lemma pop_all_text (Ts : list CType) (st : list TValue) :
  Forall2 matches Ts st -> In CString Ts -> pop_all Ts st 1 = None.
Proof.
  intros HF Hin.
  destruct (pop_all Ts st 1) as [args |] eqn:E; [exfalso | reflexivity].
  apply pop_all_spec in E as [_ Hnth].
  apply In_nth_error in Hin as [k Hk].
  destruct (Hnth k CString Hk) as (a & Ea & _).
  replace (1 + Z.of_nat k) with (position k) in Ea by (unfold position; lia).
  rewrite index2addr_position in Ea.
  assert (Hv : exists v, nth_error st k = Some v /\ matches CString v).
  { clear Ea Hnth. revert k Hk.
    induction HF as [| T v Ts' st' Hm HF' IH]; intros k Hk.
    - destruct k; discriminate.
    - destruct k as [| k].
      + injection Hk as ->. exists v. split; [reflexivity | exact Hm].
      + apply IH. exact Hk. }
  destruct Hv as (v & Ev & Hm).
  rewrite Ev in Ea. unfold extract_slot in Ea.
  rewrite (matches_text v Hm) in Ea. discriminate.
Qed.

(** A call with exactly matching arguments, one of them for a
    [std::string] parameter, passes validation and has no defined outcome:
    the decoder assigns to the text member of the zeroed union. *)
Lemma StaticBinding_text_matching (B : Binder) (w : World) :
  Forall2 matches (Args B) (stack w) -> In CString (Args B) ->
  StaticBinding B w = None.
Proof.
  intros HF Hin.
  assert (Hlen : List.length (stack w) = List.length (Args B))
    by (symmetry; eapply Forall2_length; eassumption).
  destruct (Args B) as [| Arg Rest] eqn:HArgs; [destruct Hin |].
  rewrite <- HArgs in Hlen.
  destruct (StaticBinding_after_check B w Arg Rest Hlen HArgs) as (l & _ & E).
  pose proof (check_all_matching (Arg :: Rest) 0 (stack w) (stack w)
                eq_refl HF) as Hall.
  change (position 0) with 1 in Hall. rewrite Hall in E. rewrite E.
  unfold bind.
  pose proof (PopArgs_run Rest Arg 1 (logged w ((api_gettop, 0) :: l))) as Hp.
  cbn [stack logged] in Hp.
  rewrite (pop_all_text (Arg :: Rest) (stack w) HF Hin) in Hp.
  now rewrite Hp.
Qed.

Lemma strict_text_free (Ts : list CType) :
  Forall (fun T => strict_param T = true) Ts -> text_free Ts.
Proof.
  intros H. unfold text_free. eapply Forall_impl; [| exact H].
  intros T HT ->. discriminate HT.
Qed.

(* ===================================================================== *)
(** ** Properties of the trampoline *)
(* ===================================================================== *)

(** C2.  When the number of values on the stack differs from the number of
    parameters (zero included), the trampoline writes the arity diagnostic
    and reports zero results; the stack is untouched and the bound function
    is not called: the only runtime call made is [lua_gettop]. *)
Theorem C2_arity_mismatch (B : Binder) (w : World) :
  List.length (stack w) <> List.length (Args B) ->
  StaticBinding B w
  = Some (0, mkWorld (stack w) (cout w ++ [msg_count]) (invoked w)
                     (api w ++ [(api_gettop, 0)])).
Proof. apply StaticBinding_arity. Qed.

(** C3.  With the right number of values on the stack, if the check of the
    parameter at position [k] fails, the trampoline writes the type
    diagnostic, reports zero results, leaves the stack alone and does not
    call the bound function.  Validation scans left to right and stops at
    the first failure: when every parameter before [k] passes, no runtime
    query is made at any index beyond that of [k], and [CheckArgs] itself,
    run on this stack, answers [false] after reading the slots up to that
    of [k] only. *)
Theorem C3_type_mismatch (B : Binder) (w : World) (k : nat) (T : CType) :
  List.length (stack w) = List.length (Args B) ->
  nth_error (Args B) k = Some T ->
  answer (CheckSingleArg T (position k)) w = Some false ->
  exists w' l,
    StaticBinding B w = Some (0, w')
    /\ stack w' = stack w
    /\ invoked w' = invoked w
    /\ cout w' = cout w ++ [msg_type]
    /\ api w' = api w ++ (api_gettop, 0) :: l
    /\ pushes l = 0%nat
    /\ ((forall j U, (j < k)%nat -> nth_error (Args B) j = Some U ->
           answer (CheckSingleArg U (position j)) w = Some true) ->
        reads_at (fun j => 1 <= j <= position k) l
        /\ forall Arg Rest, Args B = Arg :: Rest ->
             forall w0, stack w0 = stack w ->
               exists l0, CheckArgs Arg Rest 1 w0 = Some (false, logged w0 l0)
                          /\ reads_at (fun j => 1 <= j <= position k) l0).
Proof.
  intros Hlen Hk Hbad.
  rewrite answer_CheckSingleArg in Hbad. injection Hbad as Hbad.
  destruct (Args B) as [| Arg Rest] eqn:HArgs; [destruct k; discriminate |].
  rewrite <- HArgs in Hlen.
  rewrite (StaticBinding_checked B w Arg Rest Hlen HArgs).
  set (w1 := logged w [(api_gettop, 0)]).
  destruct (CheckArgs_run Rest Arg 1 w1) as (l & E & Hl).
  assert (Hall : check_all (Arg :: Rest) (stack w1) 1 = false).
  { apply (check_all_false _ _ 1 k T Hk).
    unfold position in Hbad. replace (1 + Z.of_nat k) with (Z.of_nat k + 1) by lia.
    exact Hbad. }
  rewrite Hall in E.
  exists (mkWorld (stack w) (cout w ++ [msg_type]) (invoked w)
                  (api w ++ (api_gettop, 0) :: l)), l.
  split; [| split; [| split; [| split; [| split; [| split]]]]]; try reflexivity.
  - unfold bind. rewrite E. unfold w1, logged, print, ret. simpl.
    rewrite <- app_assoc. reflexivity.
  - eapply reads_at_pushes; eassumption.
  - intros Hpre.
    assert (Hfirst : forall w0, stack w0 = stack w ->
              exists l0, CheckArgs Arg Rest 1 w0 = Some (false, logged w0 l0)
                         /\ reads_at (fun j => 1 <= j <= position k) l0).
    { intros w0 Hw0.
      destruct (CheckArgs_first_mismatch Rest Arg 1 w0 k T) as (l0 & E0 & Hl0).
      - intros j U Hj HU. specialize (Hpre j U Hj HU).
        rewrite answer_CheckSingleArg in Hpre. injection Hpre as Hpre.
        rewrite Hw0. unfold position in Hpre.
        replace (1 + Z.of_nat j) with (Z.of_nat j + 1) by lia. exact Hpre.
      - exact Hk.
      - rewrite Hw0. unfold position in Hbad.
        replace (1 + Z.of_nat k) with (Z.of_nat k + 1) by lia. exact Hbad.
      - exists l0. split; [exact E0 |].
        eapply reads_at_weaken; [| exact Hl0].
        unfold position. intros j Hj. cbv beta in Hj. lia. }
    split.
    + destruct (Hfirst w1 eq_refl) as (l0 & E0 & Hl0).
      assert (Hw : logged w1 l = logged w1 l0) by congruence.
      apply (f_equal api) in Hw. simpl in Hw.
      apply app_inv_head in Hw. subst l0. exact Hl0.
    + intros Arg0 Rest0 [= <- <-]. exact Hfirst.
Qed.

(** C1.  When the stack holds exactly one matching value per parameter
    (a boolean for [bool], an integer for [int], a float for [float], a
    text for [std::string], a full or light userdata for a pointer), two
    cases arise.  If no parameter is a [std::string], the trampoline
    completes and calls the bound function exactly once; the tuple it
    passes has one element per parameter, in parameter order: element [k]
    is what the extraction for parameter [k] (the address payload for a
    pointer, [GetValue] otherwise) gives on the [LuaValue] decoded at stack
    index [k + 1], which is the native value of that slot.  If a parameter
    is a [std::string], the call has no defined outcome: the decoder
    assigns the text to the member [s] of a union in which no string was
    ever constructed. *)
Theorem C1_matching_call (B : Binder) (w : World) :
  Forall2 matches (Args B) (stack w) ->
  (text_free (Args B) ->
   exists args n w',
     StaticBinding B w = Some (n, w')
     /\ invoked w' = invoked w ++ [args]
     /\ List.length args = List.length (Args B)
     /\ map Some args
        = map (fun p => native_of (fst p) (snd p)) (combine (Args B) (stack w))
     /\ forall k T, nth_error (Args B) k = Some T ->
          exists val, answer (LuaValue_ctor (position k)) w = Some val
                      /\ nth_error args k = extract T val)
  /\ (In CString (Args B) -> StaticBinding B w = None).
Proof.
  intros HF. split; [| apply StaticBinding_text_matching; exact HF].
  intros Htf.
  assert (Hlen : List.length (stack w) = List.length (Args B))
    by (symmetry; eapply Forall2_length; eassumption).
  assert (Hdec : forall args,
    map Some args
      = map (fun p => native_of (fst p) (snd p)) (combine (Args B) (stack w)) ->
    forall k T, nth_error (Args B) k = Some T ->
      exists val, answer (LuaValue_ctor (position k)) w = Some val
                  /\ nth_error args k = extract T val).
  { intros args Hmap k T Hk.
    rewrite answer_LuaValue_ctor, index2addr_position.
    eapply matching_nth_extract; eassumption. }
  destruct (Args B) as [| Arg Rest] eqn:HArgs.
  - assert (Hst : stack w = []) by (destruct (stack w); [reflexivity | discriminate]).
    rewrite (StaticBinding_nullary B w Hst HArgs).
    exists [].
    destruct B as [[|] As F]; cbn [Return Func Args] in *.
    + eexists _, _. rewrite invoke_void. simpl.
      repeat split. intros k T Hk. destruct k; discriminate.
    + eexists _, _. rewrite invoke_value. simpl.
      repeat split. intros k T Hk. destruct k; discriminate.
  - rewrite <- HArgs in Hlen.
    rewrite (StaticBinding_checked B w Arg Rest Hlen HArgs).
    set (w1 := logged w [(api_gettop, 0)]).
    destruct (CheckArgs_run Rest Arg 1 w1) as (l & E & Hl).
    pose proof (check_all_matching (Arg :: Rest) 0 (stack w1) (stack w)
                  eq_refl HF) as Hall.
    change (position 0) with 1 in Hall. rewrite Hall in E.
    unfold bind at 1. rewrite E. cbv beta iota delta [negb].
    destruct (PopArgs_matching Rest Arg 0 (logged w1 l) (stack w) eq_refl HF Htf)
      as (args & l' & E' & Hl' & Hmap).
    change (position 0) with 1 in E'. unfold bind. rewrite E'.
    exists args.
    assert (Hargs : List.length args = S (List.length Rest)).
    { apply PopArgs_only_read in E' as [_ Hargs]. exact Hargs. }
    destruct B as [[|] As F]; cbn [Return Func Args] in *.
    + eexists _, _. rewrite invoke_void. simpl.
      split; [reflexivity |]. split; [reflexivity |].
      subst As. simpl. split; [exact Hargs |]. split; [exact Hmap |].
      apply Hdec. exact Hmap.
    + eexists _, _. rewrite invoke_value. simpl.
      split; [reflexivity |]. split; [reflexivity |].
      subst As. simpl. split; [exact Hargs |]. split; [exact Hmap |].
      apply Hdec. exact Hmap.
Qed.

(** C8.  Every completed call of the trampoline ends in one of exactly
    three ways: a failure (arity or type), with no call of the bound
    function, no push and zero results reported; the success of a [void]
    function, with one call, no push and zero results; the success of a
    non-void function, with one call, exactly one push (one more value on
    the stack) and one result reported.  The reported count is the number
    of pushes and is never more than one.  A matching call of a function
    without [std::string] parameters does complete, with the count its
    return type dictates. *)
Theorem C8_result_count (B : Binder) (w : World) :
  (forall n w', StaticBinding B w = Some (n, w') ->
     exists l, api w' = api w ++ l /\ Z.of_nat (pushes l) = n /\
       ((n = 0 /\ stack w' = stack w /\ invoked w' = invoked w)
        \/ (n = 0 /\ stack w' = stack w /\ Return B = RVoid
            /\ exists args, invoked w' = invoked w ++ [args])
        \/ (n = 1 /\ Return B = RValue
            /\ exists args v, invoked w' = invoked w ++ [args]
                              /\ stack w' = stack w ++ [v])))
  /\ (Forall2 matches (Args B) (stack w) -> text_free (Args B) ->
      exists w', StaticBinding B w
                 = Some (match Return B with RVoid => 0 | RValue => 1 end, w')).
Proof.
  split.
  - intros n w' Hrun.
    destruct (Nat.eq_dec (List.length (stack w)) (List.length (Args B)))
      as [Hlen | Hne].
    2:{ rewrite (StaticBinding_arity B w Hne) in Hrun.
        injection Hrun as <- <-. exists [(api_gettop, 0)].
        split; [reflexivity |]. split; [reflexivity |]. left. now repeat split. }
    assert (Hinvoke : forall args w1 l1,
      stack w1 = stack w -> invoked w1 = invoked w ->
      api w1 = api w ++ l1 -> pushes l1 = 0%nat ->
      invoke (Return B) (Func B) args w1 = Some (n, w') ->
      exists l, api w' = api w ++ l /\ Z.of_nat (pushes l) = n /\
       ((n = 0 /\ stack w' = stack w /\ invoked w' = invoked w)
        \/ (n = 0 /\ stack w' = stack w /\ Return B = RVoid
            /\ exists args, invoked w' = invoked w ++ [args])
        \/ (n = 1 /\ Return B = RValue
            /\ exists args v, invoked w' = invoked w ++ [args]
                              /\ stack w' = stack w ++ [v]))).
    { intros args w1 l1 Hs Hi Ha Hp.
      destruct B as [[|] As F]; cbn [Return Func Args] in *.
      - rewrite invoke_void. intros [= <- <-]. simpl.
        exists l1. split; [exact Ha |]. split; [now rewrite Hp |].
        right; left. repeat split; try assumption.
        exists args. now rewrite Hi.
      - rewrite invoke_value. intros [= <- <-]. simpl.
        exists (l1 ++ [(push_api (F args), 0)]).
        split; [rewrite Ha; now rewrite app_assoc |].
        split; [rewrite pushes_app, Hp, pushes_push_api; reflexivity |].
        right; right. repeat split.
        exists args, (encoded (F args)). now rewrite Hi, Hs. }
    destruct (Args B) as [| Arg Rest] eqn:HArgs.
    + assert (Hst : stack w = [])
        by (destruct (stack w); [reflexivity | discriminate]).
      rewrite (StaticBinding_nullary B w Hst HArgs) in Hrun.
      apply (Hinvoke [] _ [(api_gettop, 0)]) in Hrun; auto.
    + rewrite <- HArgs in Hlen.
      rewrite (StaticBinding_checked B w Arg Rest Hlen HArgs) in Hrun.
      set (w1 := logged w [(api_gettop, 0)]) in Hrun.
      destruct (CheckArgs_run Rest Arg 1 w1) as (l & E & Hl).
      unfold bind at 1 in Hrun. rewrite E in Hrun.
      destruct (check_all (Arg :: Rest) (stack w1) 1);
        cbv beta iota delta [negb] in Hrun.
      * unfold bind in Hrun.
        destruct (PopArgs Arg Rest 1 (logged w1 l)) as [[args w2] |] eqn:E2;
          [| discriminate].
        apply PopArgs_only_read in E2 as [(S2 & I2 & l2 & A2 & P2) _].
        apply (Hinvoke args w2 ((api_gettop, 0) :: l ++ l2)) in Hrun; auto.
        -- rewrite A2. unfold w1, logged. simpl.
           rewrite <- !app_assoc. reflexivity.
        -- change ((api_gettop, 0) :: l ++ l2)
             with ([(api_gettop, 0)] ++ l ++ l2).
           rewrite !pushes_app, P2, (reads_at_pushes _ _ Hl). reflexivity.
      * unfold bind, print, ret in Hrun. injection Hrun as <- <-.
        exists ((api_gettop, 0) :: l). simpl.
        split; [rewrite <- app_assoc; reflexivity |].
        split.
        -- change ((api_gettop, 0) :: l) with ([(api_gettop, 0)] ++ l).
           rewrite pushes_app, (reads_at_pushes _ _ Hl). reflexivity.
        -- left. now repeat split.
  - intros HF Htf.
    assert (Hlen : List.length (stack w) = List.length (Args B))
      by (symmetry; eapply Forall2_length; eassumption).
    destruct (Args B) as [| Arg Rest] eqn:HArgs.
    + assert (Hst : stack w = [])
        by (destruct (stack w); [reflexivity | discriminate]).
      rewrite (StaticBinding_nullary B w Hst HArgs).
      destruct B as [[|] As F]; cbn [Return Func Args] in *;
        [rewrite invoke_void | rewrite invoke_value]; eexists; reflexivity.
    + rewrite <- HArgs in Hlen.
      rewrite (StaticBinding_checked B w Arg Rest Hlen HArgs).
      set (w1 := logged w [(api_gettop, 0)]).
      destruct (CheckArgs_run Rest Arg 1 w1) as (l & E & Hl).
      pose proof (check_all_matching (Arg :: Rest) 0 (stack w1) (stack w)
                    eq_refl HF) as Hall.
      change (position 0) with 1 in Hall. rewrite Hall in E.
      unfold bind at 1. rewrite E. cbv beta iota delta [negb].
      destruct (PopArgs_matching Rest Arg 0 (logged w1 l) (stack w) eq_refl
                  HF Htf)
        as (args & l' & E' & _).
      change (position 0) with 1 in E'. unfold bind. rewrite E'.
      destruct B as [[|] As F]; cbn [Return Func Args] in *;
        [rewrite invoke_void | rewrite invoke_value]; eexists; reflexivity.
Qed.

(** C4.  The check of one parameter is the runtime's own predicate for the
    kind: [lua_isboolean] for [bool], [lua_isinteger] for [int],
    [lua_isnumber] for [float], [lua_isstring] for [std::string].  The
    [int] check answers by the integer subtype of the number, not by its
    being a number: a float in the slot fails it, while it passes the
    [float] check.  A parameter of any pointer type passes exactly on a
    full or a light userdata, whatever the pointee. *)
Theorem C4_per_parameter_check (i : Z) (w : World) :
  CheckSingleArg CBool i w = lua_isboolean i w
  /\ CheckSingleArg CInt i w = lua_isinteger i w
  /\ CheckSingleArg CFloat i w = lua_isnumber i w
  /\ CheckSingleArg CString i w = lua_isstring i w
  /\ answer (CheckSingleArg CBool i) w
     = Some (type_at (stack w) i =? LUA_TBOOLEAN)
  /\ answer (CheckSingleArg CInt i) w
     = Some (match slot (stack w) i with LInteger _ => true | _ => false end)
  /\ (forall x, slot (stack w) i = LFloat x ->
        answer (CheckSingleArg CInt i) w = Some false
        /\ answer (CheckSingleArg CFloat i) w = Some true)
  /\ (forall pointee,
        answer (CheckSingleArg (CPointer pointee) i) w
        = Some (heavy_or_light (slot (stack w) i))).
Proof.
  repeat split; try reflexivity.
  - rewrite answer_CheckSingleArg. unfold check_ok. now rewrite H.
  - rewrite answer_CheckSingleArg. unfold check_ok. now rewrite H.
  - intros pointee. now rewrite answer_CheckSingleArg.
Qed.

(** C10.  For every parameter type other than [int], [float], [bool] and
    [std::string] (pointer types, and any other type without a
    specialization) the check of one parameter answers true exactly when
    the slot holds a full or a light userdata. *)
Theorem C10_catch_all_check (T : CType) (i : Z) (w : World) :
  T <> CInt -> T <> CFloat -> T <> CBool -> T <> CString ->
  exists b, answer (CheckSingleArg T i) w = Some b
            /\ (b = true <->
                exists p, slot (stack w) i = LUserdata p
                          \/ slot (stack w) i = LLightUserdata p).
Proof.
  intros Hi Hf Hb Hs. exists (heavy_or_light (slot (stack w) i)). split.
  - rewrite answer_CheckSingleArg. destruct T; try contradiction; reflexivity.
  - unfold heavy_or_light. destruct (slot (stack w) i); split;
      try discriminate; try (intros (p & [H | H]); discriminate);
      intros _; eexists; eauto.
Qed.

(** C5 (as amended).  On every slot that does not hold a text the
    constructor of [LuaValue] completes, leaving the stack and the record
    of calls of the bound function as they were, and maps the slot at the
    index so:
    boolean to [vtBool] with the boolean;
    number of the integer subtype to [vtInt] with the integer, converted to
    [int];
    number of the float subtype to [vtNumber] with the number, converted to
    [float];
    full or light userdata to [vtUserData] with the address;
    anything else, an index that denotes no value included, to [vtErr] with
    no member written, after writing the diagnostic, which is written in no
    other case.
    It queries the runtime at that index only, and what it answers depends
    on the slot at the index alone.  Nothing is stated here on the value
    built from a text. *)
Theorem C5_decoder (i : Z) (w : World) :
  ((forall s, index2addr (stack w) i <> Some (LString s)) ->
   exists val w' l,
     LuaValue_ctor i w = Some (val, w')
     /\ stack w' = stack w /\ invoked w' = invoked w
     /\ api w' = api w ++ l /\ reads_at (fun j => j = i) l
     /\ match index2addr (stack w) i with
        | Some (LBoolean b) =>
            val = mkLuaValue vtBool (member_b b) /\ cout w' = cout w
        | Some (LInteger n) =>
            val = mkLuaValue vtInt (member_i (CNum.to_int n))
            /\ cout w' = cout w
        | Some (LFloat x) =>
            val = mkLuaValue vtNumber (member_f (CNum.float_of_double x))
            /\ cout w' = cout w
        | Some (LString _) => True
        | Some (LUserdata p) | Some (LLightUserdata p) =>
            val = mkLuaValue vtUserData (member_u p) /\ cout w' = cout w
        | _ =>
            val = mkLuaValue vtErr zeroed
            /\ cout w' = cout w ++ [msg_unsupported]
        end)
  /\ (forall w2, index2addr (stack w2) i = index2addr (stack w) i ->
        answer (LuaValue_ctor i) w2 = answer (LuaValue_ctor i) w).
Proof.
  split.
  - intros Hnt.
    destruct (decoded (index2addr (stack w) i)) as [val |] eqn:Ed.
    + destruct (LuaValue_ctor_defined i w val Ed) as (l & E & Hl).
      eexists val, _, l. split; [exact E |]. cbn [stack invoked api cout].
      repeat (split; [reflexivity || exact Hl |]).
      destruct (index2addr (stack w) i) as [[]|]; cbn [decoded] in Ed;
        try (injection Ed as <-); cbn [supported_tag];
        rewrite ?app_nil_r; try exact I; split; reflexivity.
    + exfalso.
      destruct (index2addr (stack w) i) as [[]|] eqn:Ei;
        cbn [decoded] in Ed; try discriminate Ed.
      eapply Hnt. reflexivity.
  - intros w2 Hsame. rewrite !answer_LuaValue_ctor, Hsame. reflexivity.
Qed.

(** C9.  Passing the check does not make the decoded kind agree with a
    text parameter.  With the integer 5 in slot 1, the check for
    [std::string] answers true ([lua_isstring] accepts numbers), the
    decoder builds a [vtInt] value, not a [vtString] one, and the text
    extraction reads a member the decoder never wrote: it has no defined
    result, and neither has a call of the trampoline of a function taking
    one text. *)
Theorem C9_text_check_accepts_number :
  exists (w : World),
    stack w = [LInteger 5]
    /\ answer (CheckSingleArg CString 1) w = Some true
    /\ (exists val,
          answer (LuaValue_ctor 1) w = Some val
          /\ type val = vtInt /\ type val <> vtString
          /\ value val = member_i 5
          /\ GetValue_string val = None)
    /\ forall (R : RType) (f : list NativeVal -> Result R),
         StaticBinding (mkBinder R [CString] f) w = None.
Proof.
  exists (mkWorld [LInteger 5] [] [] []).
  split; [reflexivity |]. split; [reflexivity |]. split.
  - eexists. split; [reflexivity |]. repeat split. discriminate.
  - intros R f. reflexivity.
Qed.

(** C6.  Extraction is lenient between the two numeric kinds.
    [GetValue<int>] on a [vtNumber] value casts the float payload to [int]:
    it has a result exactly when the integer part of the payload is an
    [int], and the result is that integer part, the payload cut toward
    zero; 3.7 gives 3.  [GetValue<float>] on a [vtInt] value converts the
    [int] payload to [float]: the result is the [float] nearest to the
    integer (the even one of two equally near), which these two
    properties determine; it is the integer itself up to magnitude 2^24,
    and 5 gives 5.0.  For every other kind each of the two returns its own
    union member as it is stored. *)
Theorem C6_numeric_leniency :
  (forall f z,
     GetValue_int (mkLuaValue vtNumber (member_f f)) = Some z
     <-> truncation_of f z /\ CNum.is_int z)
  /\ GetValue_int (mkLuaValue vtNumber (member_f float_3_7)) = Some 3
  /\ (forall n, CNum.is_int n ->
        exists x,
          GetValue_float (mkLuaValue vtInt (member_i n)) = Some x
          /\ CNum.is_float x
          /\ float_of_integer n x
          /\ (forall y, CNum.is_float y -> float_of_integer n y -> y = x)
          /\ (Z.abs n <= 2 ^ 24 -> integral_value x n))
  /\ GetValue_float (mkLuaValue vtInt (member_i 5)) = Some float_5_0
  /\ (forall val, type val <> vtNumber ->
        GetValue_int val = value_i (value val))
  /\ (forall val, type val <> vtInt ->
        GetValue_float val = value_f (value val)).
Proof.
  split; [intros f z; apply int_of_float_spec |].
  split; [reflexivity |].
  split.
  { intros n Hn. exists (CNum.float_of_int n).
    destruct (float_of_int_spec n Hn) as [Hf Hs].
    split; [reflexivity |]. split; [exact Hf |]. split; [exact Hs |].
    split.
    - intros y Fy Hy. exact (float_of_integer_unique n y _ Fy Hy Hf Hs).
    - intros Hsmall. exact (float_of_integer_exact n _ Hsmall Hs). }
  split; [reflexivity |].
  split.
  - intros [t v] Ht. simpl in Ht |- *. destruct t; try reflexivity; contradiction.
  - intros [t v] Ht. simpl in Ht |- *. destruct t; try reflexivity; contradiction.
Qed.

(** C7 (as amended).  Pushing a native value with [PushResult] and decoding
    the slot it landed in gives back a value of the same kind with the same
    payload, for every [bool], [int], [float] and address.  A text is
    pushed as its characters up to the first NUL, so that the slot of a
    text with a NUL inside no longer holds the text; nothing is stated here
    on what the decoder builds from the slot of a text.  An address pushed
    as a light userdata is read back unchanged by [lua_touserdata]. *)
Theorem C7_round_trip (w : World) :
  (forall v, well_formed v -> is_text v = false ->
             answer (encode_decode v) w = Some (as_LuaValue v))
  /\ (forall s, PushResult (NString s) w
                = Some (tt, mkWorld (stack w ++ [LString (CStr.c_str s)])
                                    (cout w) (invoked w)
                                    (api w ++ [(api_pushstring, 0)])))
  /\ (forall p, answer (top <- lua_gettop ;;
                        lua_pushlightuserdata p ;;
                        lua_touserdata (top + 1)) w = Some p).
Proof.
  split; [| split].
  - intros v Hwf Hnt. rewrite encode_decode_run.
    destruct v as [b | n | f | s | p]; cbn [is_text] in Hnt;
      try discriminate Hnt; cbn [well_formed] in Hwf;
      cbn [encoded decoded as_LuaValue].
    + reflexivity.
    + now rewrite to_lua_Integer_id, to_int_id.
    + now rewrite float_double_float.
    + reflexivity.
  - intros s. apply PushResult_run.
  - intros p. unfold answer, lua_gettop, lua_pushlightuserdata, push,
      lua_touserdata, bind, query, log, get_stack, set_stack, ret, slot.
    simpl. now rewrite index2addr_top.
Qed.

(* ===================================================================== *)
(** ** Further properties of the checks *)
(* ===================================================================== *)

(** X1.  [CheckArgs] always answers, and it answers true exactly when the
    check of every parameter, at the index of that parameter, answers
    true. *)
Theorem X1_CheckArgs_conjunction (Arg : CType) (Rest : list CType) (i : Z)
        (w : World) :
  (exists b, answer (CheckArgs Arg Rest i) w = Some b)
  /\ (answer (CheckArgs Arg Rest i) w = Some true <->
      forall k T, nth_error (Arg :: Rest) k = Some T ->
                  answer (CheckSingleArg T (i + Z.of_nat k)) w = Some true).
Proof.
  rewrite answer_CheckArgs. split; [eexists; reflexivity |].
  split.
  - intros [= H] k T Hk. rewrite answer_CheckSingleArg. f_equal.
    now apply (check_all_true_iff (Arg :: Rest) (stack w) i).
  - intros H. f_equal. apply check_all_true_iff. intros k T Hk.
    specialize (H k T Hk). rewrite answer_CheckSingleArg in H.
    now injection H.
Qed.

(** X2.  For [bool], [int] and pointer parameters the check is exact: it
    answers true exactly when the slot holds a boolean, a number of the
    integer subtype, a full or light userdata respectively. *)
Theorem X2_strict_checks_exact (T : CType) (i : Z) (w : World) :
  strict_param T = true ->
  (answer (CheckSingleArg T i) w = Some true <->
   exists v, index2addr (stack w) i = Some v /\ matches T v).
Proof.
  intros HT. rewrite answer_CheckSingleArg. split.
  - intros [= H]. destruct (index2addr (stack w) i) as [v |] eqn:Ei.
    + exists v. split; [reflexivity |].
      destruct T; try discriminate;
        unfold check_ok, slot, type_at, heavy_or_light in H; rewrite Ei in H;
        destruct v; try discriminate H; reflexivity.
    + exfalso.
      destruct T; try discriminate;
        unfold check_ok, slot, type_at, heavy_or_light in H; rewrite Ei in H;
        discriminate H.
  - intros (v & Ei & Hm). f_equal. eapply matches_check_ok; eassumption.
Qed.

(* ===================================================================== *)
(** ** Further properties of the marshaler *)
(* ===================================================================== *)

(** X3.  [PopArgs] works slot by slot, whether or not the slots were
    validated: it answers a tuple exactly when the tuple has one element
    per parameter and element [k] is the result of the extraction for
    parameter [k] on the value decoded at the index of that parameter; it
    has no result as soon as one of these extractions has none. *)
Theorem X3_PopArgs_positionwise (Arg : CType) (Rest : list CType) (i : Z)
        (w : World) (args : list NativeVal) :
  answer (PopArgs Arg Rest i) w = Some args <->
  List.length args = S (List.length Rest)
  /\ forall k T, nth_error (Arg :: Rest) k = Some T ->
       exists val a,
         answer (LuaValue_ctor (i + Z.of_nat k)) w = Some val
         /\ extract T val = Some a
         /\ nth_error args k = Some a.
Proof.
  rewrite answer_PopArgs, pop_all_spec. split.
  - intros [Hlen Hnth]. split; [exact Hlen |]. intros k T Hk.
    destruct (Hnth k T Hk) as (a & Ea & Ha). unfold extract_slot in Ea.
    destruct (decoded (index2addr (stack w) (i + Z.of_nat k))) as [val |]
      eqn:Ed; [| discriminate Ea].
    exists val, a. rewrite answer_LuaValue_ctor. now repeat split.
  - intros [Hlen Hnth]. split; [exact Hlen |]. intros k T Hk.
    destruct (Hnth k T Hk) as (val & a & Ev & Ea & Ha).
    rewrite answer_LuaValue_ctor in Ev.
    exists a. unfold extract_slot. rewrite Ev. now split.
Qed.

(* ===================================================================== *)
(** ** Further properties of the trampoline *)
(* ===================================================================== *)

(** X4.  A value of no native kind never reaches the bound function.  A
    slot that holds nil, a table, a function or a thread, or an index
    that denotes no value, fails the check of every parameter type; and a
    call with the right number of arguments, one of which is such a value,
    ends in the type failure: zero results, the type diagnostic, the stack
    as it was and no call. *)
Theorem X4_no_native_kind_rejected (w : World) :
  (forall T i, supported_tag (index2addr (stack w) i) = false ->
               answer (CheckSingleArg T i) w = Some false)
  /\ (forall B k v,
        List.length (stack w) = List.length (Args B) ->
        nth_error (stack w) k = Some v ->
        supported_tag (Some v) = false ->
        exists w', StaticBinding B w = Some (0, w')
                   /\ stack w' = stack w
                   /\ invoked w' = invoked w
                   /\ cout w' = cout w ++ [msg_type]).
Proof.
  assert (Hbad : forall T i, supported_tag (index2addr (stack w) i) = false ->
                             check_ok T (stack w) i = false).
  { intros T i H. destruct (check_ok T (stack w) i) eqn:E; [| reflexivity].
    apply check_ok_supported in E. congruence. }
  split.
  - intros T i H. rewrite answer_CheckSingleArg. f_equal. now apply Hbad.
  - intros B k v Hlen Hk Hv.
    assert (Hlt : (k < List.length (Args B))%nat)
      by (rewrite <- Hlen; apply nth_error_Some; congruence).
    destruct (nth_error (Args B) k) as [T |] eqn:HT;
      [| apply nth_error_None in HT; lia].
    destruct (Args B) as [| Arg Rest] eqn:HArgs; [destruct k; discriminate |].
    rewrite <- HArgs in Hlen.
    destruct (StaticBinding_after_check B w Arg Rest Hlen HArgs)
      as (l & _ & E).
    rewrite (check_all_false (Arg :: Rest) (stack w) 1 k T HT) in E.
    + rewrite E. eexists. repeat split.
    + apply Hbad. replace (1 + Z.of_nat k) with (position k)
        by (unfold position; lia).
      now rewrite index2addr_position, Hk.
Qed.

(** X5.  For a function whose parameters are all [bool], [int] or
    pointers the trampoline has a defined outcome on every stack, and it
    calls the function exactly when the stack holds one exactly matching
    value per parameter; on every other stack it reports zero results
    without a call and leaves the stack as it was. *)
Theorem X5_strict_signature (B : Binder) (w : World) :
  Forall (fun T => strict_param T = true) (Args B) ->
  exists n w',
    StaticBinding B w = Some (n, w')
    /\ ((Forall2 matches (Args B) (stack w)
         /\ exists args, invoked w' = invoked w ++ [args])
        \/ (~ Forall2 matches (Args B) (stack w)
            /\ n = 0 /\ invoked w' = invoked w /\ stack w' = stack w)).
Proof.
  intros Hs.
  destruct (Nat.eq_dec (List.length (stack w)) (List.length (Args B)))
    as [Hlen | Hne].
  2:{ rewrite (StaticBinding_arity B w Hne). eexists _, _.
      split; [reflexivity |]. right. repeat split.
      intros HF. apply Forall2_length in HF. congruence. }
  destruct (Args B) as [| Arg Rest] eqn:HArgs.
  - assert (Hst : stack w = [])
      by (destruct (stack w); [reflexivity | discriminate]).
    rewrite (StaticBinding_nullary B w Hst HArgs).
    destruct B as [[|] As F]; cbn [Return Func Args] in *;
      [rewrite invoke_void | rewrite invoke_value];
      eexists _, _; (split; [reflexivity |]); left;
      (split; [rewrite Hst; constructor | eexists; reflexivity]).
  - rewrite <- HArgs in Hlen.
    destruct (StaticBinding_after_check B w Arg Rest Hlen HArgs)
      as (l & _ & E).
    destruct (check_all (Arg :: Rest) (stack w) 1) eqn:Hall.
    + assert (HF : Forall2 matches (Arg :: Rest) (stack w)).
      { apply (strict_check_all_matches (Arg :: Rest) 0 (stack w) Hs).
        - simpl skipn. now rewrite Hlen, HArgs.
        - exact Hall. }
      destruct (PopArgs_matching Rest Arg 0
                  (logged w ((api_gettop, 0) :: l)) (stack w) eq_refl HF
                  (strict_text_free _ Hs))
        as (args & l' & E' & _).
      change (position 0) with 1 in E'.
      unfold bind in E. rewrite E' in E. rewrite E.
      destruct B as [[|] As F]; cbn [Return Func Args] in *;
        [rewrite invoke_void | rewrite invoke_value];
        eexists _, _; (split; [reflexivity |]); left;
        (split; [exact HF | eexists; reflexivity]).
    + rewrite E. eexists _, _. split; [reflexivity |]. right.
      repeat split. intros HF.
      pose proof (check_all_matching (Arg :: Rest) 0 (stack w) (stack w)
                    eq_refl HF) as Hyes.
      change (position 0) with 1 in Hyes. congruence.
Qed.

(** X6.  Validation lets through two kinds of argument that cannot be
    marshalled: a number for a [std::string] parameter and a text
    (convertible to a number) for a [float] parameter.  The number is
    decoded as a number, and the text extraction then reads a union member
    that the decoder did not assign; on the text the decoder itself has no
    defined result.  When every check of a call passes and one slot holds
    such a value, the call of the trampoline has no defined outcome. *)
Theorem X6_validated_yet_undefined (B : Binder) (w : World) (k : nat)
        (T : CType) (v : TValue) :
  List.length (stack w) = List.length (Args B) ->
  (forall j U, nth_error (Args B) j = Some U ->
               answer (CheckSingleArg U (position j)) w = Some true) ->
  nth_error (Args B) k = Some T ->
  nth_error (stack w) k = Some v ->
  lenient_gap T v = true ->
  match v with
  | LString _ => answer (LuaValue_ctor (position k)) w = None
  | _ => exists val, answer (LuaValue_ctor (position k)) w = Some val
                     /\ extract T val = None
  end
  /\ StaticBinding B w = None.
Proof.
  intros Hlen Hchk HT Hv Hgap.
  assert (Hex : extract_slot T (index2addr (stack w) (position k)) = None).
  { rewrite index2addr_position, Hv.
    destruct T, v; try discriminate Hgap; reflexivity. }
  split.
  { rewrite answer_LuaValue_ctor, index2addr_position, Hv.
    destruct T, v; try discriminate Hgap;
      solve [reflexivity | eexists; split; reflexivity]. }
  destruct (Args B) as [| Arg Rest] eqn:HArgs; [destruct k; discriminate |].
  rewrite <- HArgs in Hlen.
  destruct (StaticBinding_after_check B w Arg Rest Hlen HArgs) as (l & _ & E).
  assert (Hall : check_all (Arg :: Rest) (stack w) 1 = true).
  { apply check_all_true_iff. intros j U HU.
    specialize (Hchk j U HU). rewrite answer_CheckSingleArg in Hchk.
    injection Hchk as Hchk. unfold position in Hchk.
    now replace (1 + Z.of_nat j) with (Z.of_nat j + 1) by lia. }
  rewrite Hall in E. rewrite E. unfold bind.
  pose proof (PopArgs_run Rest Arg 1 (logged w ((api_gettop, 0) :: l))) as Hp.
  cbn [stack logged] in Hp.
  destruct (pop_all (Arg :: Rest) (stack w) 1) as [args |] eqn:Epop.
  - exfalso. apply pop_all_spec in Epop as [_ Hnth].
    destruct (Hnth k T HT) as (a & Ea & _).
    replace (1 + Z.of_nat k) with (position k) in Ea
      by (unfold position; lia).
    congruence.
  - now rewrite Hp.
Qed.

(** X7.  The text written to [std::cout] tells the outcome of a completed
    call: the arity diagnostic alone when the number of arguments is
    wrong, the type diagnostic alone when a check fails, nothing at all
    when the bound function is called.  The diagnostic of the decoder for
    unsupported types is never written by the trampoline. *)
Theorem X7_diagnostics (B : Binder) (w : World) (n : Z) (w' : World) :
  StaticBinding B w = Some (n, w') ->
  (List.length (stack w) <> List.length (Args B)
   /\ cout w' = cout w ++ [msg_count] /\ invoked w' = invoked w)
  \/ (List.length (stack w) = List.length (Args B)
      /\ cout w' = cout w ++ [msg_type] /\ invoked w' = invoked w)
  \/ (List.length (stack w) = List.length (Args B)
      /\ cout w' = cout w /\ exists args, invoked w' = invoked w ++ [args]).
Proof.
  intros Hrun.
  destruct (Nat.eq_dec (List.length (stack w)) (List.length (Args B)))
    as [Hlen | Hne].
  2:{ rewrite (StaticBinding_arity B w Hne) in Hrun.
      injection Hrun as <- <-. left. now repeat split. }
  right.
  assert (Hinv : forall args w1,
    cout w1 = cout w -> invoked w1 = invoked w ->
    invoke (Return B) (Func B) args w1 = Some (n, w') ->
    cout w' = cout w /\ exists args, invoked w' = invoked w ++ [args]).
  { intros args w1 Hc Hi.
    destruct B as [[|] As F]; cbn [Return Func Args] in *;
      [rewrite invoke_void | rewrite invoke_value];
      intros [= <- <-]; simpl; (split; [exact Hc |]);
      exists args; now rewrite Hi. }
  destruct (Args B) as [| Arg Rest] eqn:HArgs.
  - assert (Hst : stack w = [])
      by (destruct (stack w); [reflexivity | discriminate]).
    rewrite (StaticBinding_nullary B w Hst HArgs) in Hrun.
    right. split; [exact Hlen |]. eapply Hinv; [| | exact Hrun]; reflexivity.
  - rewrite <- HArgs in Hlen.
    destruct (StaticBinding_after_check B w Arg Rest Hlen HArgs)
      as (l & _ & E).
    rewrite E in Hrun. rewrite HArgs in Hlen.
    destruct (check_all (Arg :: Rest) (stack w) 1) eqn:Hall.
    + right. split; [exact Hlen |]. unfold bind in Hrun.
      destruct (PopArgs Arg Rest 1 (logged w ((api_gettop, 0) :: l)))
        as [[args w2] |] eqn:E2; [| discriminate].
      pose proof (PopArgs_cout Rest Arg 1 (logged w ((api_gettop, 0) :: l))
                    args w2 Hall E2) as Hc.
      apply PopArgs_only_read in E2 as [(_ & Hi & _) _].
      eapply Hinv; [| | exact Hrun]; assumption.
    + injection Hrun as <- <-. left. now repeat split.
Qed.

(** X8.  An integer is accepted where a [float] is expected, and converted
    twice: the check for [float] passes on a number of the integer
    subtype, the decoder keeps it as an [int] (reduced modulo 2^32) and the
    extraction converts that [int] to [float].  A function of one [float]
    called with the integer [n] is called with that float. *)
Theorem X8_integer_for_float (w : World) (n : Z) :
  (forall i, index2addr (stack w) i = Some (LInteger n) ->
     answer (CheckSingleArg CFloat i) w = Some true
     /\ exists val,
          answer (LuaValue_ctor i) w = Some val
          /\ type val = vtInt
          /\ extract CFloat val
             = Some (NFloat (CNum.float_of_int (CNum.to_int n))))
  /\ (stack w = [LInteger n] ->
      forall (R : RType) (f : list NativeVal -> Result R),
      exists k w',
        StaticBinding (mkBinder R [CFloat] f) w = Some (k, w')
        /\ invoked w'
           = invoked w ++ [[NFloat (CNum.float_of_int (CNum.to_int n))]]).
Proof.
  split.
  - intros i Hi. split.
    + rewrite answer_CheckSingleArg. unfold check_ok, slot. now rewrite Hi.
    + rewrite answer_LuaValue_ctor, Hi. eexists. split; [reflexivity |].
      split; reflexivity.
  - intros Hst R f.
    destruct (StaticBinding_after_check (mkBinder R [CFloat] f) w CFloat [])
      as (l & _ & E); [now rewrite Hst | reflexivity |].
    rewrite E. cbn [Return Func].
    assert (Hall : check_all [CFloat] (stack w) 1 = true)
      by (rewrite Hst; reflexivity).
    rewrite Hall. unfold bind.
    pose proof (PopArgs_run [] CFloat 1 (logged w ((api_gettop, 0) :: l)))
      as Hp.
    cbn [stack logged] in Hp. rewrite Hst in Hp.
    change (pop_all [CFloat] [LInteger n] 1)
      with (Some [NFloat (CNum.float_of_int (CNum.to_int n))]) in Hp.
    destruct Hp as (w2 & E2 & S2). rewrite E2.
    apply PopArgs_only_read in E2 as [(_ & I2 & _) _].
    destruct R; [rewrite invoke_void | rewrite invoke_value];
      eexists _, _; (split; [reflexivity |]); simpl; now rewrite I2.
Qed.

(** X9.  Every call of a non-void function that completes with a call of
    the function reports one result and leaves on top of the unchanged
    arguments the Lua value of what the function returned on the
    marshalled arguments: a light userdata for an address, an integer for
    an [int], a float for a [float], a boolean for a [bool], and for a text
    the text up to its first NUL.  This holds whether the arguments match
    exactly or pass by the leniency of the checks; exactly matching
    arguments for parameters without [std::string] do give such a call. *)
Theorem X9_result_encoding (Ts : list CType)
        (f : list NativeVal -> NativeVal) (w : World) :
  (forall n w' args,
     StaticBinding (mkBinder RValue Ts f) w = Some (n, w') ->
     invoked w' = invoked w ++ [args] ->
     n = 1
     /\ pop_all Ts (stack w) 1 = Some args
     /\ stack w'
        = stack w ++ [match f args with
                      | NPtr p => LLightUserdata p
                      | NInt n => LInteger (CNum.to_lua_Integer n)
                      | NFloat x => LFloat (CNum.double_of_float x)
                      | NBool b => LBoolean b
                      | NString s => LString (CStr.c_str s)
                      end])
  /\ (Forall2 matches Ts (stack w) -> text_free Ts ->
      exists args w',
        StaticBinding (mkBinder RValue Ts f) w = Some (1, w')
        /\ map Some args
           = map (fun p => native_of (fst p) (snd p)) (combine Ts (stack w))
        /\ invoked w' = invoked w ++ [args]).
Proof.
  split.
  - intros n w' args Hrun Hcall.
    assert (Henc : forall a, encoded a
                   = match a with
                     | NPtr p => LLightUserdata p
                     | NInt n => LInteger (CNum.to_lua_Integer n)
                     | NFloat x => LFloat (CNum.double_of_float x)
                     | NBool b => LBoolean b
                     | NString s => LString (CStr.c_str s)
                     end) by (intros []; reflexivity).
    rewrite <- Henc.
    destruct (Nat.eq_dec (List.length (stack w)) (List.length Ts))
      as [Hlen | Hne].
    2:{ rewrite (StaticBinding_arity (mkBinder RValue Ts f) w Hne) in Hrun.
        injection Hrun as <- <-. cbn [invoked] in Hcall. symmetry in Hcall.
        destruct (snoc_neq _ _ Hcall). }
    assert (Hinv : forall args0 w1,
              stack w1 = stack w -> invoked w1 = invoked w ->
              invoke RValue f args0 w1 = Some (n, w') ->
              n = 1 /\ args0 = args
              /\ stack w' = stack w ++ [encoded (f args)]).
    { intros args0 w1 Hs Hi. rewrite invoke_value. intros [= <- <-].
      cbn [invoked stack] in *. rewrite Hi in Hcall.
      apply app_inj_tail in Hcall as [_ <-]. rewrite Hs. now repeat split. }
    destruct Ts as [| Arg Rest].
    + assert (Hst : stack w = [])
        by (destruct (stack w); [reflexivity | discriminate]).
      rewrite (StaticBinding_nullary (mkBinder RValue [] f) w Hst eq_refl)
        in Hrun.
      cbn [Return Func] in Hrun.
      destruct (Hinv [] (logged w [(api_gettop, 0)]) eq_refl eq_refl Hrun)
        as (-> & <- & Hs).
      repeat split. exact Hs.
    + destruct (StaticBinding_after_check (mkBinder RValue (Arg :: Rest) f) w
                  Arg Rest Hlen eq_refl) as (l & _ & E).
      rewrite E in Hrun. cbn [Return Func] in Hrun.
      destruct (check_all (Arg :: Rest) (stack w) 1).
      * unfold bind in Hrun.
        destruct (PopArgs Arg Rest 1 (logged w ((api_gettop, 0) :: l)))
          as [[args0 w2] |] eqn:E2; [| discriminate].
        assert (Hpop : pop_all (Arg :: Rest) (stack w) 1 = Some args0).
        { pose proof (answer_PopArgs Arg Rest 1
                        (logged w ((api_gettop, 0) :: l))) as Ha.
          unfold answer in Ha. rewrite E2 in Ha. symmetry. exact Ha. }
        apply PopArgs_only_read in E2 as [(Hs2 & Hi2 & _) _].
        destruct (Hinv args0 w2 Hs2 Hi2 Hrun) as (-> & <- & Hs).
        repeat split; assumption.
      * injection Hrun as <- <-. cbn [invoked] in Hcall. symmetry in Hcall.
        destruct (snoc_neq _ _ Hcall).
  - intros HF Htf.
    destruct (StaticBinding_value_matching Ts f w HF Htf)
      as (args & l & E & Hmap).
    eexists args, _. split; [exact E |]. split; [exact Hmap |]. reflexivity.
Qed.

(** X10.  Binding the function that returns its argument shows what a Lua
    value becomes on its way through the decoder and the encoder, for
    every parameter type but [std::string]: the call pushes [echoed v] on
    top of [v].  A boolean, an integer of 32 bits, a number that is a
    [float] and a light userdata come back as they were; any integer
    comes back reduced modulo 2^32, and a full userdata comes back as a
    light userdata of the same address. *)
Theorem X10_echo (T : CType) (v : TValue) (w : World) :
  stack w = [v] ->
  matches T v ->
  T <> CString ->
  (exists w', StaticBinding (echo_binder T) w = Some (1, w')
              /\ stack w' = [v; echoed v])
  /\ (fits_native v -> echoed v = v)
  /\ (forall n, v = LInteger n -> echoed v = LInteger (CNum.to_int n))
  /\ (forall p, v = LUserdata p -> echoed v = LLightUserdata p).
Proof.
  intros Hst Hm HT. split; [| split; [| split]].
  - assert (HF : Forall2 matches [T] (stack w))
      by (rewrite Hst; repeat constructor; exact Hm).
    assert (Htf : text_free [T]) by (repeat constructor; exact HT).
    destruct (StaticBinding_value_matching [T] first_arg w HF Htf)
      as (args & l & E & Hmap).
    unfold echo_binder. rewrite E. eexists. split; [reflexivity |].
    cbn [stack]. rewrite Hst in *. cbn [combine map fst snd] in Hmap.
    destruct args as [| a [| b r]]; try discriminate.
    injection Hmap as Ha. cbn [first_arg app]. f_equal. f_equal.
    unfold matches in Hm.
    destruct T, v; try discriminate; try contradiction;
      cbn [native_of] in Ha; injection Ha as ->; reflexivity.
  - destruct v; cbn [fits_native echoed]; try reflexivity;
      try contradiction; intros H.
    + now rewrite (to_int_id _ H), (to_lua_Integer_id _ H).
    + pose proof (is_float_is_double _ H) as H'.
      unfold CNum.double_of_float, CNum.float_of_double, CNum.fp_round,
        CNum.is_float, CNum.is_double in *.
      now rewrite H, H'.
  - intros n ->. cbn [echoed]. f_equal. apply to_lua_Integer_id.
    apply to_int_is_int.
  - intros p ->. reflexivity.
Qed.

(** X11.  Whatever the slot, a value that the constructor of [LuaValue]
    builds is well tagged: the union member assigned is the one of its
    kind and an [int] payload has 32 bits; the kind is never [vtString]
    and the member is never the text.  Hence on a decoded value the
    extractions for [bool] and addresses have a result exactly for the
    kinds [vtBool] and [vtUserData], the extraction for [float] exactly
    for the two numeric kinds, the extraction for [std::string] never, and
    the extraction for [int] on a [vtInt] value is its own payload. *)
Theorem X11_decoded_well_tagged (i : Z) (w : World) (val : LuaValue)
        (w' : World) :
  LuaValue_ctor i w = Some (val, w') ->
  well_tagged val
  /\ type val <> vtString
  /\ (is_some (GetValue_bool val) = true <-> type val = vtBool)
  /\ GetValue_string val = None
  /\ (is_some (GetValue_voidp val) = true <-> type val = vtUserData)
  /\ (is_some (GetValue_float val) = true <->
      type val = vtInt \/ type val = vtNumber)
  /\ (type val = vtInt ->
      exists n, GetValue_int val = Some n /\ value val = member_i n
                /\ CNum.is_int n).
Proof.
  intros Hrun. apply LuaValue_ctor_inv in Hrun as [Hd _].
  destruct (index2addr (stack w) i) as [[]|]; cbn [decoded] in Hd;
    try discriminate Hd; injection Hd as <-;
    (split; [unfold well_tagged; simpl; auto using to_int_is_int |]);
    simpl; repeat split; try discriminate; try reflexivity;
    try (intros [H | H]; discriminate H);
    try (intros _; left; reflexivity);
    try (intros _; right; reflexivity);
    try (intros _; eexists; repeat split; apply to_int_is_int).
Qed.

(** X12.  Nothing is decoded before validation has passed: in a completed
    call that did not call the bound function, the trampoline has only
    asked the runtime for the number and the types of the values; it has
    read no payload and pushed nothing, reports zero results and leaves the
    stack as it was. *)
Theorem X12_failure_only_queries (B : Binder) (w : World) (n : Z)
        (w' : World) :
  StaticBinding B w = Some (n, w') ->
  invoked w' = invoked w ->
  n = 0 /\ stack w' = stack w
  /\ exists l, api w' = api w ++ l /\ only_queries l.
Proof.
  intros Hrun Hsame.
  destruct (Nat.eq_dec (List.length (stack w)) (List.length (Args B)))
    as [Hlen | Hne].
  2:{ rewrite (StaticBinding_arity B w Hne) in Hrun.
      injection Hrun as <- <-. repeat split.
      exists [(api_gettop, 0)]. split; [reflexivity | repeat constructor]. }
  assert (Hinv : forall args w1, invoked w1 = invoked w ->
            invoke (Return B) (Func B) args w1 = Some (n, w') -> False).
  { intros args w1 Hi.
    destruct B as [[|] As F]; cbn [Return Func Args] in *;
      [rewrite invoke_void | rewrite invoke_value];
      intros [= <- <-]; simpl in Hsame; rewrite Hi in Hsame;
      exact (snoc_neq _ _ Hsame). }
  destruct (Args B) as [| Arg Rest] eqn:HArgs.
  - assert (Hst : stack w = [])
      by (destruct (stack w); [reflexivity | discriminate]).
    rewrite (StaticBinding_nullary B w Hst HArgs) in Hrun.
    exfalso. eapply Hinv; [| exact Hrun]. reflexivity.
  - rewrite <- HArgs in Hlen.
    destruct (StaticBinding_after_check B w Arg Rest Hlen HArgs)
      as (l & Hl & E).
    rewrite E in Hrun.
    destruct (check_all (Arg :: Rest) (stack w) 1).
    + exfalso. unfold bind in Hrun.
      destruct (PopArgs Arg Rest 1 (logged w ((api_gettop, 0) :: l)))
        as [[args w2] |] eqn:E2; [| discriminate].
      apply PopArgs_only_read in E2 as [(_ & Hi & _) _].
      eapply Hinv; [| exact Hrun]. exact Hi.
    + injection Hrun as <- <-. repeat split.
      exists ((api_gettop, 0) :: l). split; [reflexivity |].
      constructor; [split; reflexivity | exact Hl].
Qed.

(** X13.  Every tuple handed to the bound function is well typed: it has
    one element per parameter, element [k] is of the kind of parameter [k]
    (a [bool], an [int] of 32 bits, a [float], or an address for a pointer
    parameter).  A function with a parameter of another type, [std::string]
    included, is therefore never called by a call that completes. *)
Theorem X13_arguments_well_typed (B : Binder) (w : World) (n : Z)
        (w' : World) (args : list NativeVal) :
  StaticBinding B w = Some (n, w') ->
  invoked w' = invoked w ++ [args] ->
  Forall2 has_kind (Args B) args.
Proof.
  intros Hrun Hcall.
  destruct (Nat.eq_dec (List.length (stack w)) (List.length (Args B)))
    as [Hlen | Hne].
  2:{ rewrite (StaticBinding_arity B w Hne) in Hrun.
      injection Hrun as <- <-. simpl in Hcall. symmetry in Hcall.
      destruct (snoc_neq _ _ Hcall). }
  assert (Hinv : forall args0 w1, invoked w1 = invoked w ->
            invoke (Return B) (Func B) args0 w1 = Some (n, w') ->
            args0 = args).
  { intros args0 w1 Hi.
    destruct B as [[|] As F]; cbn [Return Func Args] in *;
      [rewrite invoke_void | rewrite invoke_value];
      intros [= <- <-]; simpl in Hcall; rewrite Hi in Hcall;
      apply app_inj_tail in Hcall as [_ Hcall]; exact Hcall. }
  destruct (Args B) as [| Arg Rest] eqn:HArgs.
  - assert (Hst : stack w = [])
      by (destruct (stack w); [reflexivity | discriminate]).
    rewrite (StaticBinding_nullary B w Hst HArgs) in Hrun.
    rewrite <- (Hinv [] (logged w [(api_gettop, 0)]) eq_refl Hrun).
    constructor.
  - rewrite <- HArgs in Hlen.
    destruct (StaticBinding_after_check B w Arg Rest Hlen HArgs)
      as (l & _ & E).
    rewrite E in Hrun.
    destruct (check_all (Arg :: Rest) (stack w) 1).
    + unfold bind in Hrun.
      destruct (PopArgs Arg Rest 1 (logged w ((api_gettop, 0) :: l)))
        as [[args0 w2] |] eqn:E2; [| discriminate].
      assert (Hpop : pop_all (Arg :: Rest) (stack w) 1 = Some args0).
      { pose proof (answer_PopArgs Arg Rest 1
                      (logged w ((api_gettop, 0) :: l))) as Ha.
        unfold answer in Ha. rewrite E2 in Ha. symmetry. exact Ha. }
      apply PopArgs_only_read in E2 as [(_ & Hi & _) _].
      rewrite <- (Hinv args0 w2 Hi Hrun).
      eapply pop_all_kinds; eassumption.
    + injection Hrun as <- <-. simpl in Hcall. symmetry in Hcall.
      destruct (snoc_neq _ _ Hcall).
Qed.

End Adapter.

(* ===================================================================== *)
(** ** The properties at sample inputs *)
(* ===================================================================== *)

Lemma C1_witness :
  (Forall2 matches (Args sum_binder) sum_stack
   /\ text_free (Args sum_binder)
   /\ exists args n w',
        StaticBinding decimal_str2num hash_number2str sum_binder
                      (fresh_world sum_stack) = Some (n, w')
        /\ invoked w' = [args]
        /\ List.length args = 4%nat)
  /\ (Forall2 matches (Args count_binder) count_stack
      /\ In CString (Args count_binder)
      /\ StaticBinding decimal_str2num hash_number2str count_binder
                       (fresh_world count_stack) = None).
Proof.
  assert (H : Forall2 matches (Args sum_binder)
                      (stack (fresh_world sum_stack)))
    by (repeat constructor).
  assert (T : text_free (Args sum_binder))
    by (repeat constructor; discriminate).
  assert (H' : Forall2 matches (Args count_binder)
                       (stack (fresh_world count_stack)))
    by (repeat constructor).
  assert (T' : In CString (Args count_binder))
    by (simpl; right; right; left; reflexivity).
  split.
  - split; [exact H |]. split; [exact T |].
    destruct (proj1 (C1_matching_call decimal_str2num hash_number2str
                       sum_binder (fresh_world sum_stack) H) T)
      as (args & n & w' & E & I & L & _).
    exists args, n, w'. repeat split; assumption.
  - split; [exact H' |]. split; [exact T' |].
    exact (proj2 (C1_matching_call decimal_str2num hash_number2str
                    count_binder (fresh_world count_stack) H') T').
Defined.

Lemma C2_witness :
  List.length (stack (fresh_world [LNil])) <> List.length (Args nothing_binder)
  /\ StaticBinding decimal_str2num hash_number2str nothing_binder
                   (fresh_world [LNil])
     = Some (0, mkWorld [LNil] [msg_count] [] [(api_gettop, 0)]).
Proof.
  split; [simpl; lia |].
  apply (C2_arity_mismatch decimal_str2num hash_number2str nothing_binder
           (fresh_world [LNil])).
  simpl; lia.
Defined.

Lemma C3_witness :
  List.length (stack (fresh_world bad_stack))
  = List.length (Args count_binder)
  /\ nth_error (Args count_binder) 1 = Some CFloat
  /\ answer (CheckSingleArg decimal_str2num CFloat (position 1))
            (fresh_world bad_stack) = Some false
  /\ exists w' l,
       StaticBinding decimal_str2num hash_number2str count_binder
                     (fresh_world bad_stack) = Some (0, w')
       /\ stack w' = bad_stack
       /\ invoked w' = []
       /\ cout w' = [msg_type]
       /\ api w' = (api_gettop, 0) :: l
       /\ reads_at (fun j => 1 <= j <= 2) l.
Proof.
  repeat (split; [reflexivity |]).
  destruct (C3_type_mismatch decimal_str2num hash_number2str count_binder
              (fresh_world bad_stack) 1 CFloat
              eq_refl eq_refl eq_refl)
    as (w' & l & E & S & I & C & A & _ & Hfirst).
  destruct Hfirst as [Hl _].
  { intros j U Hj HU. destruct j as [| j]; [| lia].
    injection HU as <-. reflexivity. }
  exists w', l. repeat split; assumption.
Defined.

Lemma C4_witness :
  slot [LFloat float_5_0] 1 = LFloat float_5_0
  /\ answer (CheckSingleArg decimal_str2num CInt 1)
            (fresh_world [LFloat float_5_0]) = Some false
  /\ answer (CheckSingleArg decimal_str2num CFloat 1)
            (fresh_world [LFloat float_5_0]) = Some true.
Proof.
  split; [reflexivity |].
  destruct (C4_per_parameter_check decimal_str2num 1
              (fresh_world [LFloat float_5_0]))
    as (_ & _ & _ & _ & _ & _ & H & _).
  exact (H float_5_0 eq_refl).
Defined.

Lemma C5_witness :
  (forall s, index2addr (stack (fresh_world [LNil; LInteger 4294967301])) 2
             <> Some (LString s))
  /\ (exists val w' l,
        LuaValue_ctor decimal_str2num hash_number2str 2
                      (fresh_world [LNil; LInteger 4294967301])
        = Some (val, w')
        /\ stack w' = [LNil; LInteger 4294967301]
        /\ api w' = [] ++ l
        /\ reads_at (fun j => j = 2) l
        /\ val = mkLuaValue vtInt (member_i 5))
  /\ index2addr (stack (fresh_world [LNil; LBoolean true])) 2
     = index2addr (stack (fresh_world [LBoolean true; LBoolean true])) 2
  /\ answer (LuaValue_ctor decimal_str2num hash_number2str 2)
            (fresh_world [LNil; LBoolean true])
     = answer (LuaValue_ctor decimal_str2num hash_number2str 2)
              (fresh_world [LBoolean true; LBoolean true]).
Proof.
  assert (N : forall s,
            index2addr (stack (fresh_world [LNil; LInteger 4294967301])) 2
            <> Some (LString s)) by (intros s; discriminate).
  split; [exact N |]. split.
  - destruct (proj1 (C5_decoder decimal_str2num hash_number2str 2
                       (fresh_world [LNil; LInteger 4294967301])) N)
      as (val & w' & l & E & S & _ & A & R & V & _).
    exists val, w', l. repeat split; assumption.
  - split; [reflexivity |].
    destruct (C5_decoder decimal_str2num hash_number2str 2
                (fresh_world [LBoolean true; LBoolean true])) as [_ H].
    apply H. reflexivity.
Defined.

Lemma C6_witness :
  truncation_of float_3_7 3 /\ CNum.is_int 3
  /\ GetValue_int (mkLuaValue vtNumber (member_f float_3_7)) = Some 3
  /\ CNum.is_int 16777217
  /\ (exists x,
        GetValue_float (mkLuaValue vtInt (member_i 16777217)) = Some x
        /\ CNum.is_float x
        /\ float_of_integer 16777217 x
        /\ x = S754_finite false 1 24)
  /\ CNum.is_int (-5)
  /\ (exists x,
        GetValue_float (mkLuaValue vtInt (member_i (-5))) = Some x
        /\ integral_value x (-5))
  /\ type (mkLuaValue vtBool (member_b true)) <> vtNumber
  /\ GetValue_int (mkLuaValue vtBool (member_b true)) = None
  /\ type (mkLuaValue vtNumber (member_f float_3_7)) <> vtInt
  /\ GetValue_float (mkLuaValue vtNumber (member_f float_3_7))
     = Some float_3_7.
Proof.
  pose proof C6_numeric_leniency as (Htrunc & _ & Hwide & _ & Hi & Hf).
  assert (T : truncation_of float_3_7 3)
    by (unfold truncation_of, float_3_7; simpl; lia).
  assert (I3 : CNum.is_int 3)
    by (unfold CNum.is_int, CNum.in_range; simpl; lia).
  assert (I1 : CNum.is_int 16777217)
    by (unfold CNum.is_int, CNum.in_range; simpl; lia).
  assert (I2 : CNum.is_int (-5))
    by (unfold CNum.is_int, CNum.in_range; simpl; lia).
  split; [exact T |]. split; [exact I3 |].
  split; [exact (proj2 (Htrunc float_3_7 3) (conj T I3)) |].
  split; [exact I1 |].
  split.
  { destruct (Hwide 16777217 I1) as (x & E & F & S & _).
    exists x. repeat split; try assumption.
    injection E as <-. reflexivity. }
  split; [exact I2 |].
  split.
  { destruct (Hwide (-5) I2) as (x & E & _ & _ & _ & X).
    exists x. split; [exact E |]. apply X. simpl. lia. }
  assert (H1 : type (mkLuaValue vtBool (member_b true)) <> vtNumber)
    by (simpl; discriminate).
  assert (H2 : type (mkLuaValue vtNumber (member_f float_3_7)) <> vtInt)
    by (simpl; discriminate).
  split; [exact H1 |]. split; [exact (Hi _ H1) |].
  split; [exact H2 |]. exact (Hf _ H2).
Defined.

Lemma C7_witness :
  well_formed (NInt (-5))
  /\ is_text (NInt (-5)) = false
  /\ answer (encode_decode decimal_str2num hash_number2str (NInt (-5)))
            (fresh_world [LNil])
     = Some (mkLuaValue vtInt (member_i (-5)))
  /\ well_formed (NFloat float_0_1)
  /\ answer (encode_decode decimal_str2num hash_number2str (NFloat float_0_1))
            (fresh_world [LNil])
     = Some (mkLuaValue vtNumber (member_f float_0_1)).
Proof.
  destruct (C7_round_trip decimal_str2num hash_number2str (fresh_world [LNil]))
    as (H & _ & _).
  assert (W1 : well_formed (NInt (-5)))
    by (unfold well_formed, CNum.is_int, CNum.in_range; simpl; lia).
  assert (W2 : well_formed (NFloat float_0_1)) by reflexivity.
  split; [exact W1 |]. split; [reflexivity |].
  split; [exact (H (NInt (-5)) W1 eq_refl) |].
  split; [exact W2 |]. exact (H (NFloat float_0_1) W2 eq_refl).
Defined.

Lemma C8_witness :
  StaticBinding decimal_str2num hash_number2str sum_binder
                (fresh_world sum_stack) = Some (1, sum_result)
  /\ Forall2 matches (Args sum_binder) sum_stack
  /\ text_free (Args sum_binder)
  /\ (exists l,
        api sum_result = api (fresh_world sum_stack) ++ l
        /\ Z.of_nat (pushes l) = 1)
  /\ exists w',
       StaticBinding decimal_str2num hash_number2str sum_binder
                     (fresh_world sum_stack) = Some (1, w').
Proof.
  assert (E : StaticBinding decimal_str2num hash_number2str sum_binder
                (fresh_world sum_stack) = Some (1, sum_result))
    by (vm_compute; reflexivity).
  assert (F : Forall2 matches (Args sum_binder)
                      (stack (fresh_world sum_stack)))
    by (repeat constructor).
  assert (T : text_free (Args sum_binder))
    by (repeat constructor; discriminate).
  split; [exact E |]. split; [exact F |]. split; [exact T |].
  destruct (C8_result_count decimal_str2num hash_number2str sum_binder
              (fresh_world sum_stack)) as [Hcls Hdone].
  split.
  - destruct (Hcls _ _ E) as (l & A & P & _).
    exists l. split; [exact A | exact P].
  - exact (Hdone F T).
Defined.

Lemma C10_witness :
  COther "double" <> CInt /\ COther "double" <> CFloat
  /\ COther "double" <> CBool /\ COther "double" <> CString
  /\ exists b,
       answer (CheckSingleArg decimal_str2num (COther "double") 1)
              (fresh_world [LUserdata 4096]) = Some b
       /\ (b = true <->
           exists p, slot [LUserdata 4096] 1 = LUserdata p
                     \/ slot [LUserdata 4096] 1 = LLightUserdata p).
Proof.
  assert (H1 : COther "double" <> CInt) by discriminate.
  assert (H2 : COther "double" <> CFloat) by discriminate.
  assert (H3 : COther "double" <> CBool) by discriminate.
  assert (H4 : COther "double" <> CString) by discriminate.
  repeat (split; [assumption |]).
  exact (C10_catch_all_check decimal_str2num (COther "double") 1
           (fresh_world [LUserdata 4096]) H1 H2 H3 H4).
Defined.

(** The decoder does not keep what the runtime reads when the native
    field is narrower: an integer beyond 32 bits wraps, a double that is
    no float is rounded. *)
Lemma C5_counterexample :
  (answer (lua_tointeger decimal_str2num 1)
          (fresh_world [LInteger 4294967296])
   = Some 4294967296
   /\ answer (LuaValue_ctor decimal_str2num hash_number2str 1)
             (fresh_world [LInteger 4294967296])
      = Some (mkLuaValue vtInt (member_i 0)))
  /\ (answer (lua_tonumber decimal_str2num 1) (fresh_world [LFloat double_0_1])
      = Some double_0_1
      /\ answer (LuaValue_ctor decimal_str2num hash_number2str 1)
                (fresh_world [LFloat double_0_1])
         = Some (mkLuaValue vtNumber (member_f float_0_1))
      /\ float_0_1 <> double_0_1).
Proof.
  repeat split; try reflexivity; discriminate.
Qed.

(** A text with a NUL inside does not survive the round trip: what the
    result encoder leaves in the slot is the text cut at the NUL. *)
Lemma C7_counterexample :
  PushResult (NString text_a_NUL_b) (fresh_world [])
  = Some (tt, mkWorld [LString "a"] [] [] [(api_pushstring, 0)])
  /\ LString "a" <> LString text_a_NUL_b
  /\ answer (encode_decode decimal_str2num hash_number2str
                           (NString text_a_NUL_b)) (fresh_world [])
     <> Some (as_LuaValue (NString text_a_NUL_b)).
Proof.
  split; [reflexivity |]. split; discriminate.
Qed.

(* ===================================================================== *)
(** ** The further properties at sample inputs *)
(* ===================================================================== *)

Lemma X1_witness :
  (forall k T, nth_error [CInt; CFloat] k = Some T ->
     answer (CheckSingleArg decimal_str2num T (1 + Z.of_nat k))
            (fresh_world [LInteger 7; LString "10"]) = Some true)
  /\ answer (CheckArgs decimal_str2num CInt [CFloat] 1)
            (fresh_world [LInteger 7; LString "10"]) = Some true.
Proof.
  assert (H : forall k T, nth_error [CInt; CFloat] k = Some T ->
     answer (CheckSingleArg decimal_str2num T (1 + Z.of_nat k))
            (fresh_world [LInteger 7; LString "10"]) = Some true).
  { intros k T Hk. destruct k as [| [| k]].
    - injection Hk as <-. reflexivity.
    - injection Hk as <-. reflexivity.
    - destruct k; discriminate. }
  split; [exact H |].
  apply (proj2 (X1_CheckArgs_conjunction decimal_str2num CInt [CFloat] 1
                  (fresh_world [LInteger 7; LString "10"]))).
  exact H.
Defined.

Lemma X2_witness :
  strict_param CInt = true
  /\ answer (CheckSingleArg decimal_str2num CInt 1)
            (fresh_world [LInteger 7]) = Some true
  /\ exists v, index2addr [LInteger 7] 1 = Some v /\ matches CInt v.
Proof.
  split; [reflexivity |]. split; [reflexivity |].
  apply (proj1 (X2_strict_checks_exact decimal_str2num CInt 1
                  (fresh_world [LInteger 7]) eq_refl)).
  reflexivity.
Defined.

Lemma X3_witness :
  answer (PopArgs decimal_str2num hash_number2str CFloat [CInt] 1)
         (fresh_world [LInteger 7; LFloat double_3_7])
  = Some [NFloat (CNum.float_of_int 7); NInt 3]
  /\ exists val a,
       answer (LuaValue_ctor decimal_str2num hash_number2str 2)
              (fresh_world [LInteger 7; LFloat double_3_7]) = Some val
       /\ extract CInt val = Some a
       /\ nth_error [NFloat (CNum.float_of_int 7); NInt 3] 1 = Some a.
Proof.
  assert (E : answer (PopArgs decimal_str2num hash_number2str CFloat [CInt] 1)
                     (fresh_world [LInteger 7; LFloat double_3_7])
              = Some [NFloat (CNum.float_of_int 7); NInt 3])
    by reflexivity.
  split; [exact E |].
  destruct (proj1 (X3_PopArgs_positionwise decimal_str2num hash_number2str
                     CFloat [CInt] 1
                     (fresh_world [LInteger 7; LFloat double_3_7]) _) E)
    as [_ H].
  exact (H 1%nat CInt eq_refl).
Defined.

Lemma X4_witness :
  supported_tag (index2addr [LTable 1] 1) = false
  /\ answer (CheckSingleArg decimal_str2num (CPointer "Foo") 1)
            (fresh_world [LTable 1]) = Some false
  /\ exists w',
       StaticBinding decimal_str2num hash_number2str float_binder
                     (fresh_world [LTable 1]) = Some (0, w')
       /\ stack w' = [LTable 1] /\ invoked w' = []
       /\ cout w' = [msg_type].
Proof.
  destruct (X4_no_native_kind_rejected decimal_str2num hash_number2str
              (fresh_world [LTable 1])) as [H1 H2].
  split; [reflexivity |].
  split; [exact (H1 (CPointer "Foo") 1 eq_refl) |].
  exact (H2 float_binder 0%nat (LTable 1) eq_refl eq_refl eq_refl).
Defined.

Lemma X5_witness :
  Forall (fun T => strict_param T = true) (Args strict_binder)
  /\ exists n w',
       StaticBinding decimal_str2num hash_number2str strict_binder
                     (fresh_world [LBoolean true; LFloat float_5_0; LNil])
       = Some (n, w')
       /\ ((Forall2 matches (Args strict_binder)
                    [LBoolean true; LFloat float_5_0; LNil]
            /\ exists args, invoked w' = [] ++ [args])
           \/ (~ Forall2 matches (Args strict_binder)
                         [LBoolean true; LFloat float_5_0; LNil]
               /\ n = 0 /\ invoked w' = []
               /\ stack w' = [LBoolean true; LFloat float_5_0; LNil])).
Proof.
  assert (H : Forall (fun T => strict_param T = true) (Args strict_binder))
    by (repeat constructor).
  split; [exact H |].
  exact (X5_strict_signature decimal_str2num hash_number2str strict_binder
           (fresh_world [LBoolean true; LFloat float_5_0; LNil]) H).
Defined.

Lemma X6_witness :
  (forall j U, nth_error (Args text_binder) j = Some U ->
     answer (CheckSingleArg decimal_str2num U (position j))
            (fresh_world [LInteger 5]) = Some true)
  /\ lenient_gap CString (LInteger 5) = true
  /\ (exists val,
        answer (LuaValue_ctor decimal_str2num hash_number2str (position 0))
               (fresh_world [LInteger 5]) = Some val
        /\ extract CString val = None)
  /\ StaticBinding decimal_str2num hash_number2str text_binder
                   (fresh_world [LInteger 5]) = None.
Proof.
  assert (H : forall j U, nth_error (Args text_binder) j = Some U ->
     answer (CheckSingleArg decimal_str2num U (position j))
            (fresh_world [LInteger 5]) = Some true).
  { intros j U HU. destruct j as [| j].
    - injection HU as <-. reflexivity.
    - destruct j; discriminate. }
  split; [exact H |]. split; [reflexivity |].
  exact (X6_validated_yet_undefined decimal_str2num hash_number2str
           text_binder (fresh_world [LInteger 5]) 0 CString
           (LInteger 5) eq_refl H eq_refl eq_refl eq_refl).
Defined.

Lemma X7_witness :
  StaticBinding decimal_str2num hash_number2str count_binder
                (fresh_world bad_stack)
  = Some (0, mkWorld bad_stack [msg_type] []
                     [(api_gettop, 0); (api_isinteger, 1); (api_isnumber, 2)])
  /\ (List.length bad_stack <> List.length (Args count_binder)
      /\ [msg_type] = [] ++ [msg_count] /\ @nil (list NativeVal) = []
      \/ List.length bad_stack = List.length (Args count_binder)
         /\ [msg_type] = [] ++ [msg_type] /\ @nil (list NativeVal) = []
      \/ List.length bad_stack = List.length (Args count_binder)
         /\ [msg_type] = []
         /\ exists args, @nil (list NativeVal) = [] ++ [args]).
Proof.
  assert (E : StaticBinding decimal_str2num hash_number2str count_binder
                (fresh_world bad_stack)
              = Some (0, mkWorld bad_stack [msg_type] []
                     [(api_gettop, 0); (api_isinteger, 1); (api_isnumber, 2)]))
    by reflexivity.
  split; [exact E |].
  exact (X7_diagnostics decimal_str2num hash_number2str count_binder
           (fresh_world bad_stack) _ _ E).
Defined.

Lemma X8_witness :
  index2addr (stack (fresh_world [LInteger 4294967301])) 1
  = Some (LInteger 4294967301)
  /\ answer (CheckSingleArg decimal_str2num CFloat 1)
            (fresh_world [LInteger 4294967301]) = Some true
  /\ exists k w',
       StaticBinding decimal_str2num hash_number2str float_binder
                     (fresh_world [LInteger 4294967301]) = Some (k, w')
       /\ invoked w'
          = [] ++ [[NFloat (CNum.float_of_int (CNum.to_int 4294967301))]].
Proof.
  destruct (X8_integer_for_float decimal_str2num hash_number2str
              (fresh_world [LInteger 4294967301]) 4294967301) as [H1 H2].
  split; [reflexivity |].
  split; [exact (proj1 (H1 1 eq_refl)) |].
  exact (H2 eq_refl RVoid (fun _ => tt)).
Defined.

Lemma X9_witness :
  StaticBinding decimal_str2num hash_number2str sum_binder
                (fresh_world sum_stack) = Some (1, sum_result)
  /\ pop_all (Args sum_binder) sum_stack 1
     = Some [NInt 7; NFloat float_3_7; NBool true; NPtr 4096]
  /\ stack sum_result = sum_stack ++ [LInteger 4]
  /\ Forall2 matches (Args sum_binder) sum_stack
  /\ text_free (Args sum_binder)
  /\ exists args w',
       StaticBinding decimal_str2num hash_number2str sum_binder
                     (fresh_world sum_stack) = Some (1, w')
       /\ invoked w' = [] ++ [args].
Proof.
  assert (E : StaticBinding decimal_str2num hash_number2str sum_binder
                (fresh_world sum_stack) = Some (1, sum_result))
    by (vm_compute; reflexivity).
  assert (H : Forall2 matches (Args sum_binder)
                      (stack (fresh_world sum_stack)))
    by (repeat constructor).
  assert (T : text_free (Args sum_binder))
    by (repeat constructor; discriminate).
  destruct (X9_result_encoding decimal_str2num hash_number2str
              (Args sum_binder) (Func sum_binder) (fresh_world sum_stack))
    as [HA HB].
  destruct (HA 1 sum_result
               [NInt 7; NFloat float_3_7; NBool true; NPtr 4096] E eq_refl)
    as (_ & P & S).
  split; [exact E |]. split; [exact P |]. split; [exact S |].
  split; [exact H |]. split; [exact T |].
  destruct (HB H T) as (args & w' & E' & _ & I).
  exists args, w'. split; assumption.
Defined.

Lemma X10_witness :
  matches (CPointer "Foo") (LUserdata 4096)
  /\ CPointer "Foo" <> CString
  /\ (exists w',
        StaticBinding decimal_str2num hash_number2str
                      (echo_binder (CPointer "Foo"))
                      (fresh_world [LUserdata 4096]) = Some (1, w')
        /\ stack w' = [LUserdata 4096; echoed (LUserdata 4096)])
  /\ echoed (LUserdata 4096) = LLightUserdata 4096
  /\ fits_native (LInteger 7)
  /\ echoed (LInteger 7) = LInteger 7.
Proof.
  assert (M1 : matches (CPointer "Foo") (LUserdata 4096)) by reflexivity.
  assert (M2 : matches CInt (LInteger 7)) by reflexivity.
  assert (N1 : CPointer "Foo" <> CString) by discriminate.
  assert (N2 : CInt <> CString) by discriminate.
  assert (F : fits_native (LInteger 7))
    by (unfold fits_native, CNum.is_int, CNum.in_range; simpl; lia).
  destruct (X10_echo decimal_str2num hash_number2str (CPointer "Foo")
              (LUserdata 4096) (fresh_world [LUserdata 4096]) eq_refl M1 N1)
    as (H1 & _ & _ & H4).
  destruct (X10_echo decimal_str2num hash_number2str CInt
              (LInteger 7) (fresh_world [LInteger 7]) eq_refl M2 N2)
    as (_ & H2 & _).
  split; [exact M1 |]. split; [exact N1 |]. split; [exact H1 |].
  split; [exact (H4 4096 eq_refl) |].
  split; [exact F | exact (H2 F)].
Defined.

Lemma X11_witness :
  LuaValue_ctor decimal_str2num hash_number2str 1
                (fresh_world [LInteger 4294967301])
  = Some (mkLuaValue vtInt (member_i 5),
          mkWorld [LInteger 4294967301] [] []
                  [(api_type, 1); (api_isinteger, 1); (api_tointegerx, 1)])
  /\ well_tagged (mkLuaValue vtInt (member_i 5))
  /\ GetValue_string (mkLuaValue vtInt (member_i 5)) = None.
Proof.
  assert (E : LuaValue_ctor decimal_str2num hash_number2str 1
                (fresh_world [LInteger 4294967301])
              = Some (mkLuaValue vtInt (member_i 5),
                      mkWorld [LInteger 4294967301] [] []
                              [(api_type, 1); (api_isinteger, 1);
                               (api_tointegerx, 1)]))
    by reflexivity.
  split; [exact E |].
  destruct (X11_decoded_well_tagged decimal_str2num hash_number2str 1
              (fresh_world [LInteger 4294967301]) _ _ E)
    as (H1 & _ & _ & H2 & _).
  split; [exact H1 | exact H2].
Defined.

Lemma X12_witness :
  StaticBinding decimal_str2num hash_number2str count_binder
                (fresh_world bad_stack)
  = Some (0, mkWorld bad_stack [msg_type] []
                     [(api_gettop, 0); (api_isinteger, 1); (api_isnumber, 2)])
  /\ exists l,
       [(api_gettop, 0); (api_isinteger, 1); (api_isnumber, 2)] = [] ++ l
       /\ only_queries l.
Proof.
  assert (E : StaticBinding decimal_str2num hash_number2str count_binder
                (fresh_world bad_stack)
              = Some (0, mkWorld bad_stack [msg_type] []
                     [(api_gettop, 0); (api_isinteger, 1); (api_isnumber, 2)]))
    by reflexivity.
  split; [exact E |].
  destruct (X12_failure_only_queries decimal_str2num hash_number2str
              count_binder (fresh_world bad_stack) _ _ E eq_refl)
    as (_ & _ & H).
  exact H.
Defined.

Lemma X13_witness :
  StaticBinding decimal_str2num hash_number2str sum_binder
                (fresh_world sum_stack) = Some (1, sum_result)
  /\ Forall2 has_kind (Args sum_binder)
             [NInt 7; NFloat float_3_7; NBool true; NPtr 4096].
Proof.
  assert (E : StaticBinding decimal_str2num hash_number2str sum_binder
                (fresh_world sum_stack) = Some (1, sum_result))
    by (vm_compute; reflexivity).
  split; [exact E |].
  exact (X13_arguments_well_typed decimal_str2num hash_number2str sum_binder
           (fresh_world sum_stack) 1 sum_result _ E eq_refl).
Defined.
